(** * RomFS reader (nxdumptool, [source/romfs.h])

    A shallow embedding of the RomFS context of [romfs.h]: the two header
    layouts, the directory and file entry records, the context structure,
    and the three inline functions the header defines
    ([romfsFreeContext], [romfsGetDirectoryEntry], [romfsGetFileEntry]).
    The operations the header only declares ([romfsInitializeContext],
    [romfsReadFileEntryData], [romfsGetDirectoryDataSize],
    [romfsGetTotalDataSize]) are modelled from the specification, on top of
    the structures and the resolvers of the header.

    Conventions.
    - Unsigned C integers are [Z]; a [u32] ranges over [0, 2^32) and a
      [u64] (and [size_t], the target being AArch64) over [0, 2^64).
      Additions performed by the code are written with their wrap-around.
    - A pointer is either [Null] or a block identifier with a byte offset
      into that block; [malloc]'d buffers live in a heap, a finite map from
      block identifiers to their bytes.
    - A pointer argument [RomFileSystemContext *ctx] is an
      [option Ctx.t]: [None] is the null pointer, [Some c] a pointer to a
      structure whose current value is [c]. *)

From Stdlib Require Import ZArith List Lia Bool.
From Stdlib Require Import Init.Byte.
From stdpp Require Import base option list gmap.

Import ListNotations.
Local Open Scope Z_scope.

(** ** Machine integers *)

Definition u32_max : Z := 2 ^ 32.
Definition u64_max : Z := 2 ^ 64.

Definition is_u32 (z : Z) : Prop := 0 <= z < u32_max.
Definition is_u64 (z : Z) : Prop := 0 <= z < u64_max.

(** Addition of two [u64] operands (also [size_t] on the target). *)
Definition add64 (a b : Z) : Z := (a + b) mod u64_max.

(** ** Constants of [romfs.h] *)

Definition ROMFS_OLD_HEADER_SIZE : Z := 0x28.
Definition ROMFS_HEADER_SIZE : Z := 0x50.
Definition ROMFS_VOID_ENTRY : Z := 0xFFFFFFFF.

(** ** Bytes and little-endian fields *)

Definition byte_val (b : byte) : Z := Z.of_N (Byte.to_N b).

Definition byte_of_Z (z : Z) : byte :=
  match Byte.of_N (Z.to_N (z mod 256)) with
  | Some b => b
  | None => x00
  end.

(** Value of a little-endian byte string. *)
Fixpoint le_decode (bs : list byte) : Z :=
  match bs with
  | [] => 0
  | b :: rest => byte_val b + 256 * le_decode rest
  end.

(** Little-endian encoding of [z] on [n] bytes. *)
Fixpoint le_encode (n : nat) (z : Z) : list byte :=
  match n with
  | O => []
  | S k => byte_of_Z z :: le_encode k (z / 256)
  end.

(** The [n] bytes of [bs] starting at byte offset [o]. *)
Definition slice (bs : list byte) (o : Z) (n : nat) : list byte :=
  firstn n (skipn (Z.to_nat o) bs).

Definition field_u32 (bs : list byte) (o : Z) : Z := le_decode (slice bs o 4).
Definition field_u64 (bs : list byte) (o : Z) : Z := le_decode (slice bs o 8).

(** ** Pointers and the heap *)

Inductive ptr : Type :=
| Null
| Ptr (b : positive) (ofs : Z).

Definition is_null (p : ptr) : bool :=
  match p with Null => true | Ptr _ _ => false end.

(** [(u8* )p + n] *)
Definition ptr_add (p : ptr) (n : Z) : ptr :=
  match p with
  | Null => Null
  | Ptr b ofs => Ptr b (ofs + n)
  end.

(** Live [malloc]'d buffers. *)
Abbreviation heap := (gmap positive (list byte)).

(** Reading [n] bytes through a pointer; [None] when the access leaves the
    live buffer the pointer refers to. *)
Definition load (h : heap) (p : ptr) (n : Z) : option (list byte) :=
  match p with
  | Null => None
  | Ptr b ofs =>
      match h !! b with
      | None => None
      | Some bs =>
          if (0 <=? ofs) && (0 <=? n) && (ofs + n <=? Z.of_nat (length bs))
          then Some (slice bs ofs (Z.to_nat n))
          else None
      end
  end.

(** ** Header layouts *)

(** Header used by NCA0 RomFS sections: ten [u32] fields. *)
Module RomFileSystemInformationOld.
Record t : Type := mk {
  header_size : Z;
  directory_bucket_offset : Z;
  directory_bucket_size : Z;
  directory_entry_offset : Z;
  directory_entry_size : Z;
  file_bucket_offset : Z;
  file_bucket_size : Z;
  file_entry_offset : Z;
  file_entry_size : Z;
  body_offset : Z
}.
Definition sizeof : Z := 40.
Definition of_bytes (bs : list byte) : t :=
  mk (field_u32 bs 0) (field_u32 bs 4) (field_u32 bs 8) (field_u32 bs 12)
     (field_u32 bs 16) (field_u32 bs 20) (field_u32 bs 24) (field_u32 bs 28)
     (field_u32 bs 32) (field_u32 bs 36).
End RomFileSystemInformationOld.

(** Header used by NCA2/NCA3 RomFS sections: ten [u64] fields. *)
Module RomFileSystemInformation.
Record t : Type := mk {
  header_size : Z;
  directory_bucket_offset : Z;
  directory_bucket_size : Z;
  directory_entry_offset : Z;
  directory_entry_size : Z;
  file_bucket_offset : Z;
  file_bucket_size : Z;
  file_entry_offset : Z;
  file_entry_size : Z;
  body_offset : Z
}.
Definition sizeof : Z := 80.
Definition of_bytes (bs : list byte) : t :=
  mk (field_u64 bs 0) (field_u64 bs 8) (field_u64 bs 16) (field_u64 bs 24)
     (field_u64 bs 32) (field_u64 bs 40) (field_u64 bs 48) (field_u64 bs 56)
     (field_u64 bs 64) (field_u64 bs 72).
End RomFileSystemInformation.

(** Header union: [ROMFS_HEADER_SIZE] raw bytes seen through either layout. *)
Module RomFileSystemHeader.
Definition t : Type := list byte.
Definition old_format (h : t) : RomFileSystemInformationOld.t :=
  RomFileSystemInformationOld.of_bytes h.
Definition cur_format (h : t) : RomFileSystemInformation.t :=
  RomFileSystemInformation.of_bytes h.
Definition zero : t := repeat x00 (Z.to_nat ROMFS_HEADER_SIZE).
End RomFileSystemHeader.

(** ** Table entries *)

(** Directory entry: six [u32] fields, then the name. *)
Module RomFileSystemDirectoryEntry.
Record t : Type := mk {
  parent_offset : Z;
  next_offset : Z;
  directory_offset : Z;
  file_offset : Z;
  bucket_offset : Z;
  name_length : Z
}.
(** [sizeof(RomFileSystemDirectoryEntry)]: the flexible [name] member
    adds nothing. *)
Definition sizeof : Z := 24.
Definition of_bytes (bs : list byte) : t :=
  mk (field_u32 bs 0) (field_u32 bs 4) (field_u32 bs 8) (field_u32 bs 12)
     (field_u32 bs 16) (field_u32 bs 20).
End RomFileSystemDirectoryEntry.

(** File entry: two [u32], two [u64], two [u32] fields, then the name. *)
Module RomFileSystemFileEntry.
Record t : Type := mk {
  parent_offset : Z;
  next_offset : Z;
  offset : Z;
  size : Z;
  bucket_offset : Z;
  name_length : Z
}.
Definition sizeof : Z := 32.
Definition of_bytes (bs : list byte) : t :=
  mk (field_u32 bs 0) (field_u32 bs 4) (field_u64 bs 8) (field_u64 bs 16)
     (field_u32 bs 24) (field_u32 bs 28).
End RomFileSystemFileEntry.

Module DirEntry := RomFileSystemDirectoryEntry.
Module FileEntry := RomFileSystemFileEntry.

(** ** The section reader and the context *)

(** The two hash-verification engines a verified read can be routed
    through; each carries the pointer to its hash table information. *)
Inductive verification_engine : Type :=
| HierarchicalSha256 (info : ptr)
| HierarchicalIntegrity (info : ptr).

(** Modelled from the spec: [NcaFsSectionContext] is declared in [nca.h],
    which is not part of the sources. It is the Raw Section Reader: a plain
    and a verified byte-range read of the container section (position and
    length, [None] on failure), the RomFS region inside the section, and
    the hash table information of either engine. *)
Module NcaFsSectionContext.
Record t : Type := mk {
  read : Z -> Z -> option (list byte);
  read_verified : Z -> Z -> verification_engine -> option (list byte);
  region_offset : Z;
  region_size : Z;
  hierarchical_sha256 : ptr;
  hierarchical_integrity : ptr
}.
End NcaFsSectionContext.

Module RomFileSystemContext.
Record t : Type := mk {
  nca_fs_ctx : option NcaFsSectionContext.t;
  sha256_hash_info : ptr;
  integrity_hash_info : ptr;
  offset : Z;
  size : Z;
  header : RomFileSystemHeader.t;
  dir_table_size : Z;
  dir_table : ptr;
  file_table_size : Z;
  file_table : ptr;
  body_offset : Z
}.
(** The structure after [memset(ctx, 0, sizeof(RomFileSystemContext))]. *)
Definition zero : t :=
  mk None Null Null 0 0 RomFileSystemHeader.zero 0 Null 0 Null 0.
End RomFileSystemContext.

Module Ctx := RomFileSystemContext.

(** ** Machine state and effects *)

Inductive event : Type :=
| EvAlloc (b : positive) (n : Z)
| EvFree (p : ptr)
| EvRead (pos len : Z)
| EvReadVerified (pos len : Z) (e : verification_engine).

(** The heap of live buffers and the log of the effects performed so far,
    most recent last. *)
Record machine : Type := Machine {
  mem : heap;
  trace : list event
}.

(** Computations over the machine; [None] is undefined behaviour. *)
Definition M (A : Type) : Type := machine -> option (A * machine).

#[global] Instance M_ret : MRet M := fun A (a : A) (m : machine) => Some (a, m).
#[global] Instance M_bind : MBind M :=
  fun A B (f : A -> M B) (c : M A) (m : machine) =>
    match c m with
    | Some (a, m') => f a m'
    | None => None
    end.

Definition emit (e : event) : M unit :=
  fun m => Some (tt, Machine (mem m) (trace m ++ [e])).

(** [free(p)]: a no-op on the null pointer, releases the buffer [p] is the
    base of, and is undefined on anything else (in particular on a buffer
    that was already released). *)
Definition free (p : ptr) : M unit :=
  fun m =>
    match p with
    | Null => Some (tt, m)
    | Ptr b ofs =>
        match mem m !! b with
        | Some _ =>
            if ofs =? 0
            then Some (tt, Machine (delete b (mem m)) (trace m ++ [EvFree p]))
            else None
        | None => None
        end
    end.

(** ** The inline functions of [romfs.h] *)

(** Cleanups a previously initialized RomFS context. Returns the value the
    pointed-to structure has afterwards. *)
Definition romfsFreeContext (ctx : option Ctx.t) : M (option Ctx.t) :=
  match ctx with
  | None => mret None
  | Some c =>
      (if is_null (Ctx.dir_table c) then mret tt else free (Ctx.dir_table c)) ;;
      (if is_null (Ctx.file_table c) then mret tt else free (Ctx.file_table c)) ;;
      mret (Some Ctx.zero)
  end.

Definition romfsGetDirectoryEntry (ctx : option Ctx.t) (dir_entry_offset : Z) : ptr :=
  match ctx with
  | None => Null
  | Some c =>
      if is_null (Ctx.dir_table c)
         || (Ctx.dir_table_size c <? add64 dir_entry_offset DirEntry.sizeof)
      then Null
      else ptr_add (Ctx.dir_table c) dir_entry_offset
  end.

Definition romfsGetFileEntry (ctx : option Ctx.t) (file_entry_offset : Z) : ptr :=
  match ctx with
  | None => Null
  | Some c =>
      if is_null (Ctx.file_table c)
         || (Ctx.file_table_size c <? add64 file_entry_offset FileEntry.sizeof)
      then Null
      else ptr_add (Ctx.file_table c) file_entry_offset
  end.

(** The records seen through a resolved pointer. *)
Definition load_dir_entry (h : heap) (p : ptr) : option DirEntry.t :=
  DirEntry.of_bytes <$> load h p DirEntry.sizeof.

Definition load_file_entry (h : heap) (p : ptr) : option FileEntry.t :=
  FileEntry.of_bytes <$> load h p FileEntry.sizeof.

(** An entry offset resolved and read: [None] when the resolver answers
    [NULL] (or when the view it answers cannot be read). *)
Definition resolve_dir (h : heap) (c : Ctx.t) (o : Z) : option DirEntry.t :=
  load_dir_entry h (romfsGetDirectoryEntry (Some c) o).

Definition resolve_file (h : heap) (c : Ctx.t) (o : Z) : option FileEntry.t :=
  load_file_entry h (romfsGetFileEntry (Some c) o).

(** A context whose tables are loaded: each table pointer is the base of a
    live buffer of exactly the recorded size. *)
Definition table_loaded (h : heap) (table : ptr) (table_size : Z) : Prop :=
  exists b bs, table = Ptr b 0 /\ h !! b = Some bs /\ Z.of_nat (length bs) = table_size.

Definition initialized (h : heap) (c : Ctx.t) : Prop :=
  table_loaded h (Ctx.dir_table c) (Ctx.dir_table_size c) /\
  table_loaded h (Ctx.file_table c) (Ctx.file_table_size c).

(** Modelled from the spec: the check a caller makes before it reads the
    name of a resolved entry (no function of [romfs.h] performs it):
    [offset + fixed_record_size + name_length <= table_size]. *)
Definition name_in_bounds (table_size o fixed_record_size name_length : Z) : bool :=
  o + fixed_record_size + name_length <=? table_size.

(** ** Operations declared in [romfs.h] and defined elsewhere *)

(** Modelled from the spec: the error taxonomy of the operations that
    [romfs.h] declares as returning [bool]. *)
Inductive error : Type :=
| FormatError
| BoundsError
| RangeError
| IOError
| TraversalError.

Inductive result (A : Type) : Type :=
| Ok (a : A)
| Err (e : error).
Arguments Ok {A} a.
Arguments Err {A} e.

Inductive layout : Type :=
| LegacyLayout
| CurrentLayout.

(** Modelled from the spec: the normalized header of the Header Parser,
    "all offsets/sizes in a single 64-bit-wide shape regardless of which
    layout was read". *)
Module Header.
Record t : Type := mk {
  format : layout;
  directory_bucket_offset : Z;
  directory_bucket_size : Z;
  directory_entry_offset : Z;
  directory_entry_size : Z;
  file_bucket_offset : Z;
  file_bucket_size : Z;
  file_entry_offset : Z;
  file_entry_size : Z;
  body_offset : Z
}.
Definition of_old (o : RomFileSystemInformationOld.t) : t :=
  mk LegacyLayout
     (RomFileSystemInformationOld.directory_bucket_offset o)
     (RomFileSystemInformationOld.directory_bucket_size o)
     (RomFileSystemInformationOld.directory_entry_offset o)
     (RomFileSystemInformationOld.directory_entry_size o)
     (RomFileSystemInformationOld.file_bucket_offset o)
     (RomFileSystemInformationOld.file_bucket_size o)
     (RomFileSystemInformationOld.file_entry_offset o)
     (RomFileSystemInformationOld.file_entry_size o)
     (RomFileSystemInformationOld.body_offset o).
Definition of_cur (o : RomFileSystemInformation.t) : t :=
  mk CurrentLayout
     (RomFileSystemInformation.directory_bucket_offset o)
     (RomFileSystemInformation.directory_bucket_size o)
     (RomFileSystemInformation.directory_entry_offset o)
     (RomFileSystemInformation.directory_entry_size o)
     (RomFileSystemInformation.file_bucket_offset o)
     (RomFileSystemInformation.file_bucket_size o)
     (RomFileSystemInformation.file_entry_offset o)
     (RomFileSystemInformation.file_entry_size o)
     (RomFileSystemInformation.body_offset o).
End Header.

(** Modelled from the spec: the Header Parser, the first step of
    [romfsInitializeContext] (declared in [romfs.h], defined in a file that
    is not part of the sources). The legacy 32-bit size field is tested
    first; only if it differs from the legacy constant is the 64-bit size
    field tested. *)
Definition parse_header (hdr : RomFileSystemHeader.t) : result Header.t :=
  if RomFileSystemInformationOld.header_size (RomFileSystemHeader.old_format hdr)
     =? ROMFS_OLD_HEADER_SIZE
  then Ok (Header.of_old (RomFileSystemHeader.old_format hdr))
  else if RomFileSystemInformation.header_size (RomFileSystemHeader.cur_format hdr)
          =? ROMFS_HEADER_SIZE
  then Ok (Header.of_cur (RomFileSystemHeader.cur_format hdr))
  else Err FormatError.

(** [malloc(n)]: a fresh zero-filled buffer. *)
Definition malloc (n : Z) : M ptr :=
  fun m =>
    let b := fresh (dom (mem m)) in
    Some (Ptr b 0,
          Machine (<[b := repeat x00 (Z.to_nat n)]> (mem m)) (trace m ++ [EvAlloc b n])).

(** Overwriting the buffer [p] is the base of. *)
Definition fill (p : ptr) (bs : list byte) : M unit :=
  fun m =>
    match p with
    | Ptr b 0 =>
        match mem m !! b with
        | Some _ => Some (tt, Machine (<[b := bs]> (mem m)) (trace m))
        | None => None
        end
    | _ => None
    end.

(** Modelled from the spec: a delegated read that "failed or returned
    short" is an I/O failure. *)
Definition exactly (len : Z) (r : option (list byte)) : option (list byte) :=
  match r with
  | Some bs => if Z.of_nat (length bs) =? len then Some bs else None
  | None => None
  end.

Definition section_read (r : NcaFsSectionContext.t) (pos len : Z)
  : M (option (list byte)) :=
  emit (EvRead pos len) ;;
  mret (exactly len (NcaFsSectionContext.read r pos len)).

Definition section_read_verified (r : NcaFsSectionContext.t) (pos len : Z)
    (e : verification_engine) : M (option (list byte)) :=
  emit (EvReadVerified pos len e) ;;
  mret (exactly len (NcaFsSectionContext.read_verified r pos len e)).

(** Modelled from the spec: the Table Loader. A buffer of the reported size
    is allocated and filled by one delegated read at the table's offset in
    the RomFS region; if the read fails the buffer is released. *)
Definition load_table (r : NcaFsSectionContext.t) (table_offset table_size : Z)
  : M (result ptr) :=
  p ← malloc table_size;
  data ← section_read r (NcaFsSectionContext.region_offset r + table_offset) table_size;
  match data with
  | Some bs => fill p bs ;; mret (Ok p)
  | None => free p ;; mret (Err IOError)
  end.

(** Modelled from the spec: [romfsInitializeContext] (declared in
    [romfs.h], defined in a file that is not part of the sources). Header
    read and parse, then the directory table (whose size must not be
    zero), then the file table (whose size may be zero). On failure every
    buffer allocated so far has been released and no context is
    produced. *)
Definition romfsInitializeContext (r : NcaFsSectionContext.t) : M (result Ctx.t) :=
  raw ← section_read r (NcaFsSectionContext.region_offset r) ROMFS_HEADER_SIZE;
  match raw with
  | None => mret (Err IOError)
  | Some hdr =>
      match parse_header hdr with
      | Err e => mret (Err e)
      | Ok nh =>
          if Header.directory_entry_size nh =? 0 then mret (Err FormatError)
          else
            dt ← load_table r (Header.directory_entry_offset nh)
                              (Header.directory_entry_size nh);
            match dt with
            | Err e => mret (Err e)
            | Ok dir =>
                ft ← load_table r (Header.file_entry_offset nh)
                                  (Header.file_entry_size nh);
                match ft with
                | Err e => free dir ;; mret (Err e)
                | Ok file =>
                    mret (Ok (Ctx.mk
                      (Some r)
                      (match Header.format nh with
                       | LegacyLayout => NcaFsSectionContext.hierarchical_sha256 r
                       | CurrentLayout => Null
                       end)
                      (match Header.format nh with
                       | LegacyLayout => Null
                       | CurrentLayout => NcaFsSectionContext.hierarchical_integrity r
                       end)
                      (NcaFsSectionContext.region_offset r)
                      (NcaFsSectionContext.region_size r)
                      hdr
                      (Header.directory_entry_size nh) dir
                      (Header.file_entry_size nh) file
                      (Header.body_offset nh)))
                end
            end
      end
  end.

(** Modelled from the spec: the engine a context routes verified reads
    through, "whichever hash-verification engine the context holds". *)
Definition context_engine (c : Ctx.t) : verification_engine :=
  if is_null (Ctx.sha256_hash_info c)
  then HierarchicalIntegrity (Ctx.integrity_hash_info c)
  else HierarchicalSha256 (Ctx.sha256_hash_info c).

(** Modelled from the spec: [romfsReadFileEntryData] (declared in
    [romfs.h], defined in a file that is not part of the sources), the
    Payload Reader. The requested range is checked against the size the
    entry declares; only then is the read delegated, at
    [region_offset + body_offset + entry.offset + local_offset]. The spec
    states the check and the position arithmetically. *)
Definition romfsReadFileEntryData (c : Ctx.t) (file_entry : FileEntry.t)
    (read_size offset : Z) : M (result (list byte)) :=
  if FileEntry.size file_entry <? offset + read_size then mret (Err RangeError)
  else
    match Ctx.nca_fs_ctx c with
    | None => mret (Err IOError)
    | Some r =>
        data ← section_read_verified r
                 (Ctx.offset c + Ctx.body_offset c + FileEntry.offset file_entry + offset)
                 read_size (context_engine c);
        match data with
        | Some bs => mret (Ok bs)
        | None => mret (Err IOError)
        end
    end.

(** ** Size accounting *)

(** Modelled from the spec: the walk along a chain of sibling files, adding
    the declared size of each one to [acc]; the chain ends at the sentinel.
    [None] means the walk did not finish within [fuel] steps (the format has
    no defence against a cyclic chain). The sum is a [u64], as the
    [u64 *out_size] of the declarations has it: the additions wrap. *)
Fixpoint file_chain_size (fuel : nat) (h : heap) (c : Ctx.t) (cur acc : Z)
  : option (result Z) :=
  match fuel with
  | O => None
  | S f =>
      if cur =? ROMFS_VOID_ENTRY then Some (Ok acc)
      else
        match resolve_file h c cur with
        | None => Some (Err TraversalError)
        | Some fe =>
            file_chain_size f h c (FileEntry.next_offset fe)
              (add64 acc (FileEntry.size fe))
        end
  end.

(** Modelled from the spec: [romfsGetDirectoryDataSize] (declared in
    [romfs.h], defined in a file that is not part of the sources), the Size
    Accountant. The files of the directory are summed along their sibling
    chain, then the same sum is taken recursively for every child directory
    along the chain of sibling directories. An offset that does not
    resolve aborts the whole computation. The result is the [u64] that
    [u64 *out_size] receives: every addition wraps at [2^64]. *)
Fixpoint romfsGetDirectoryDataSize (fuel : nat) (h : heap) (c : Ctx.t)
    (dir_entry_offset : Z) : option (result Z) :=
  match fuel with
  | O => None
  | S f =>
      match resolve_dir h c dir_entry_offset with
      | None => Some (Err TraversalError)
      | Some de =>
          match file_chain_size f h c (DirEntry.file_offset de) 0 with
          | None => None
          | Some (Err e) => Some (Err e)
          | Some (Ok files) =>
              child_chain_size f h c (DirEntry.directory_offset de) files
          end
      end
  end
with child_chain_size (fuel : nat) (h : heap) (c : Ctx.t) (cur acc : Z)
  : option (result Z) :=
  match fuel with
  | O => None
  | S f =>
      if cur =? ROMFS_VOID_ENTRY then Some (Ok acc)
      else
        match resolve_dir h c cur with
        | None => Some (Err TraversalError)
        | Some ce =>
            match romfsGetDirectoryDataSize f h c cur with
            | None => None
            | Some (Err e) => Some (Err e)
            | Some (Ok sub) =>
                child_chain_size f h c (DirEntry.next_offset ce) (add64 acc sub)
            end
        end
  end.

(** Modelled from the spec: [romfsGetTotalDataSize], the size of the
    subtree of the root directory, the entry at offset 0. *)
Definition romfsGetTotalDataSize (fuel : nat) (h : heap) (c : Ctx.t)
  : option (result Z) :=
  romfsGetDirectoryDataSize fuel h c 0.

(** *** The entry graph of a loaded archive *)

(** [f] lies on the chain of sibling files that starts at [cur]. *)
Inductive file_on_chain (h : heap) (c : Ctx.t) : Z -> Z -> Prop :=
| foc_here cur :
    cur <> ROMFS_VOID_ENTRY -> file_on_chain h c cur cur
| foc_next cur fe f :
    cur <> ROMFS_VOID_ENTRY ->
    resolve_file h c cur = Some fe ->
    file_on_chain h c (FileEntry.next_offset fe) f ->
    file_on_chain h c cur f.

(** [d] lies on the chain of sibling directories that starts at [cur]. *)
Inductive dir_on_chain (h : heap) (c : Ctx.t) : Z -> Z -> Prop :=
| doc_here cur :
    cur <> ROMFS_VOID_ENTRY -> dir_on_chain h c cur cur
| doc_next cur ce d :
    cur <> ROMFS_VOID_ENTRY ->
    resolve_dir h c cur = Some ce ->
    dir_on_chain h c (DirEntry.next_offset ce) d ->
    dir_on_chain h c cur d.

(** Directory offsets reachable from [root] through child links. *)
Inductive reachable_dir (h : heap) (c : Ctx.t) (root : Z) : Z -> Prop :=
| rd_root : reachable_dir h c root root
| rd_child d de d' :
    reachable_dir h c root d ->
    resolve_dir h c d = Some de ->
    dir_on_chain h c (DirEntry.directory_offset de) d' ->
    reachable_dir h c root d'.

(** File offsets reachable from [root]: the files of a reachable
    directory. *)
Definition reachable_file (h : heap) (c : Ctx.t) (root f : Z) : Prop :=
  exists d de,
    reachable_dir h c root d /\
    resolve_dir h c d = Some de /\
    file_on_chain h c (DirEntry.file_offset de) f.

(** Some offset the traversal from [root] can be led to does not
    resolve. *)
Definition unresolved_reachable (h : heap) (c : Ctx.t) (root : Z) : Prop :=
  (exists d, reachable_dir h c root d /\ resolve_dir h c d = None) \/
  (exists f, reachable_file h c root f /\ resolve_file h c f = None).

(** The size the file entry at offset [f] declares. *)
Definition declared_size (h : heap) (c : Ctx.t) (f : Z) : Z :=
  match resolve_file h c f with
  | Some fe => FileEntry.size fe
  | None => 0
  end.


(** The [u64] accumulator after the declared sizes of [files] have been
    added to it one by one. *)
Definition chain_total (h : heap) (c : Ctx.t) (files : list Z) (acc : Z) : Z :=
  fold_left (fun a f => add64 a (declared_size h c f)) files acc.

(** *** Acyclic archives as finite trees *)

(** How a chain of sibling files ends: at the sentinel, or at an offset
    that does not resolve. *)
Inductive chain_end : Type :=
| EndVoid
| EndBroken (o : Z).

(** The shape of the entry graph under a directory offset, when it is
    finite: a directory with the offsets of its files and the trees of its
    child directories, or an offset that does not resolve. *)
Inductive dir_tree : Type :=
| Broken (o : Z)
| Node (o : Z) (files : list Z) (fend : chain_end) (children : forest)
with forest : Type :=
| FEnd
| FCons (t : dir_tree) (rest : forest).

Inductive file_chain_repr (h : heap) (c : Ctx.t) : Z -> list Z -> chain_end -> Prop :=
| fcr_void : file_chain_repr h c ROMFS_VOID_ENTRY [] EndVoid
| fcr_broken cur :
    cur <> ROMFS_VOID_ENTRY ->
    resolve_file h c cur = None ->
    file_chain_repr h c cur [] (EndBroken cur)
| fcr_cons cur fe l e :
    cur <> ROMFS_VOID_ENTRY ->
    resolve_file h c cur = Some fe ->
    file_chain_repr h c (FileEntry.next_offset fe) l e ->
    file_chain_repr h c cur (cur :: l) e.

Inductive dir_repr (h : heap) (c : Ctx.t) : Z -> dir_tree -> Prop :=
| dr_broken d :
    resolve_dir h c d = None -> dir_repr h c d (Broken d)
| dr_node d de files fend children :
    resolve_dir h c d = Some de ->
    file_chain_repr h c (DirEntry.file_offset de) files fend ->
    forest_repr h c (DirEntry.directory_offset de) children ->
    dir_repr h c d (Node d files fend children)
with forest_repr (h : heap) (c : Ctx.t) : Z -> forest -> Prop :=
| fr_void : forest_repr h c ROMFS_VOID_ENTRY FEnd
| fr_broken cur :
    cur <> ROMFS_VOID_ENTRY ->
    resolve_dir h c cur = None ->
    forest_repr h c cur (FCons (Broken cur) FEnd)
| fr_cons cur ce t rest :
    cur <> ROMFS_VOID_ENTRY ->
    resolve_dir h c cur = Some ce ->
    dir_repr h c cur t ->
    forest_repr h c (DirEntry.next_offset ce) rest ->
    forest_repr h c cur (FCons t rest).

Scheme dir_repr_mut := Minimality for dir_repr Sort Prop
with forest_repr_mut := Minimality for forest_repr Sort Prop.
Combined Scheme dir_forest_repr_ind from dir_repr_mut, forest_repr_mut.

Scheme dir_tree_mut := Induction for dir_tree Sort Prop
with forest_mut := Induction for forest Sort Prop.
Combined Scheme dir_tree_forest_ind from dir_tree_mut, forest_mut.

(** The entry graph under [root] is finite. *)
Definition acyclic (h : heap) (c : Ctx.t) (root : Z) : Prop :=
  exists t, dir_repr h c root t.

(** Every offset in the tree resolved. *)
Fixpoint intact (t : dir_tree) : bool :=
  match t with
  | Broken _ => false
  | Node _ _ fend children =>
      match fend with EndVoid => intact_forest children | EndBroken _ => false end
  end
with intact_forest (ts : forest) : bool :=
  match ts with
  | FEnd => true
  | FCons t rest => intact t && intact_forest rest
  end.

(** The file offsets of a tree, in traversal order. *)
Fixpoint tree_files (t : dir_tree) : list Z :=
  match t with
  | Broken _ => []
  | Node _ files _ children => files ++ forest_files children
  end
with forest_files (ts : forest) : list Z :=
  match ts with
  | FEnd => []
  | FCons t rest => tree_files t ++ forest_files rest
  end.


(** What the traversal computes on a tree. *)
Fixpoint tree_size (h : heap) (c : Ctx.t) (t : dir_tree) : result Z :=
  match t with
  | Broken _ => Err TraversalError
  | Node _ files fend children =>
      match fend with
      | EndBroken _ => Err TraversalError
      | EndVoid => forest_size h c children (chain_total h c files 0)
      end
  end
with forest_size (h : heap) (c : Ctx.t) (ts : forest) (acc : Z) : result Z :=
  match ts with
  | FEnd => Ok acc
  | FCons t rest =>
      match tree_size h c t with
      | Err e => Err e
      | Ok sub => forest_size h c rest (add64 acc sub)
      end
  end.

(** ** A small archive *)

(** Records as they are laid out in a table: the fixed part, the name, and
    the padding that aligns the next record to 4 bytes. *)
Definition name_padding (name : list byte) : list byte :=
  repeat x00 (Z.to_nat ((4 - Z.of_nat (length name) mod 4) mod 4)).

Definition encode_dir_entry (parent next dir file bucket : Z) (name : list byte)
  : list byte :=
  le_encode 4 parent ++ le_encode 4 next ++ le_encode 4 dir ++ le_encode 4 file
  ++ le_encode 4 bucket ++ le_encode 4 (Z.of_nat (length name))
  ++ name ++ name_padding name.

Definition encode_file_entry (parent next data_offset data_size bucket : Z)
    (name : list byte) : list byte :=
  le_encode 4 parent ++ le_encode 4 next ++ le_encode 8 data_offset
  ++ le_encode 8 data_size ++ le_encode 4 bucket
  ++ le_encode 4 (Z.of_nat (length name)) ++ name ++ name_padding name.

Definition encode_header (width : nat) (fields : list Z) : list byte :=
  flat_map (le_encode width) fields.

(** A section whose bytes are [img]: a read succeeds when it lies inside
    the image. *)
Definition image_read (img : list byte) (pos len : Z) : option (list byte) :=
  if (0 <=? pos) && (0 <=? len) && (pos + len <=? Z.of_nat (length img))
  then Some (slice img pos (Z.to_nat len))
  else None.

Definition image_section (img : list byte) (region_offset : Z) : NcaFsSectionContext.t :=
  NcaFsSectionContext.mk
    (image_read img)
    (fun pos len _ => image_read img pos len)
    region_offset
    (Z.of_nat (length img) - region_offset)
    (Ptr 100 0)
    (Ptr 101 0).

(** Directory table: the root (offset 0) with one child directory "a"
    (offset 24), itself without children. *)
Definition example_dir_table : list byte :=
  encode_dir_entry ROMFS_VOID_ENTRY ROMFS_VOID_ENTRY 24 0 ROMFS_VOID_ENTRY []
  ++ encode_dir_entry 0 ROMFS_VOID_ENTRY ROMFS_VOID_ENTRY 72 ROMFS_VOID_ENTRY [x61].

(** File table: "x" (offset 0, 5 bytes) and "y" (offset 36, 7 bytes) in the
    root, "z" (offset 72, 4 bytes) in "a". *)
Definition example_file_table : list byte :=
  encode_file_entry 0 36 0 5 ROMFS_VOID_ENTRY [x78]
  ++ encode_file_entry 0 ROMFS_VOID_ENTRY 5 7 ROMFS_VOID_ENTRY [x79]
  ++ encode_file_entry 24 ROMFS_VOID_ENTRY 12 4 ROMFS_VOID_ENTRY [x7a].

Definition example_body : list byte :=
  [x68; x65; x6c; x6c; x6f; x52; x6f; x6d; x46; x53; x21; x21; x64; x61; x74; x61].

(** The region: a current-layout header, the two entry tables, the body. *)
Definition example_header : list byte :=
  encode_header 8 [0x50; 0x50; 0; 0x50; 52; 0x84; 0; 0x84; 108; 0xF0].

Definition example_region : list byte :=
  example_header ++ example_dir_table ++ example_file_table ++ example_body.

(** The region sits 16 bytes into its section. *)
Definition example_section : NcaFsSectionContext.t :=
  image_section (repeat xff 16 ++ example_region) 16.

Definition example_heap : heap :=
  <[1%positive := example_dir_table]> (<[2%positive := example_file_table]> ∅).

Definition example_context : Ctx.t :=
  Ctx.mk (Some example_section) Null (Ptr 101 0) 16 256 example_header
         52 (Ptr 1 0) 108 (Ptr 2 0) 0xF0.


(** The same region with an empty file table, and with an empty directory
    table. *)
Definition no_files_region : list byte :=
  encode_header 8 [0x50; 0x50; 0; 0x50; 24; 0x68; 0; 0x68; 0; 0x68]
  ++ encode_dir_entry ROMFS_VOID_ENTRY ROMFS_VOID_ENTRY ROMFS_VOID_ENTRY
       ROMFS_VOID_ENTRY ROMFS_VOID_ENTRY [].

Definition no_dirs_region : list byte :=
  encode_header 8 [0x50; 0x50; 0; 0x50; 0; 0x50; 0; 0x50; 0; 0x50].

(** A context whose directory table is larger than 4 GiB. *)
Definition huge_table_size : Z := 0x100000017.

Definition huge_heap : heap :=
  <[1%positive := repeat x00 (Z.to_nat huge_table_size)]>
    (<[2%positive := repeat x00 (Z.to_nat huge_table_size)]> ∅).

Definition huge_context : Ctx.t :=
  Ctx.mk (Some example_section) Null (Ptr 101 0) 16 256 example_header
         huge_table_size (Ptr 1 0) huge_table_size (Ptr 2 0) 0xF0.

(** Tables cut right after the fixed part of an entry whose name is nine
    bytes long. *)
Definition long_name : list byte :=
  [x6c; x6f; x6e; x67; x2d; x6e; x61; x6d; x65].

Definition truncated_dir_table : list byte :=
  firstn 24 (encode_dir_entry ROMFS_VOID_ENTRY ROMFS_VOID_ENTRY ROMFS_VOID_ENTRY
               ROMFS_VOID_ENTRY ROMFS_VOID_ENTRY long_name).

Definition truncated_file_table : list byte :=
  firstn 32 (encode_file_entry 0 ROMFS_VOID_ENTRY 0 3 ROMFS_VOID_ENTRY long_name).

Definition truncated_heap : heap :=
  <[1%positive := truncated_dir_table]> (<[2%positive := truncated_file_table]> ∅).

Definition truncated_context : Ctx.t :=
  Ctx.mk (Some example_section) Null (Ptr 101 0) 16 256 example_header
         24 (Ptr 1 0) 32 (Ptr 2 0) 0xF0.

(** A legacy-layout header for the same tables, and a header whose size
    field matches neither layout. *)
Definition legacy_header : list byte :=
  encode_header 4 [0x28; 0x50; 0; 0x50; 52; 0x84; 0; 0x84; 108; 0xF0]
  ++ repeat x00 40.

Definition bad_header : list byte :=
  encode_header 8 [0x48; 0x50; 0; 0x50; 52; 0x84; 0; 0x84; 108; 0xF0].

(** The example archive with its file table cut after the second entry:
    the file of directory "a" (offset 72) no longer resolves. *)
Definition cut_heap : heap :=
  <[1%positive := example_dir_table]>
    (<[2%positive := firstn 72 example_file_table]> ∅).

Definition cut_context : Ctx.t :=
  Ctx.mk (Some example_section) Null (Ptr 101 0) 16 256 example_header
         52 (Ptr 1 0) 72 (Ptr 2 0) 0xF0.

Definition cut_tree : dir_tree :=
  Node 0 [0; 36] EndVoid (FCons (Node 24 [] (EndBroken 72) FEnd) FEnd).

(** An archive that holds a root directory and nothing else. *)
Definition lone_root_table : list byte :=
  encode_dir_entry ROMFS_VOID_ENTRY ROMFS_VOID_ENTRY ROMFS_VOID_ENTRY
    ROMFS_VOID_ENTRY ROMFS_VOID_ENTRY [].


Definition lone_root_context : Ctx.t :=
  Ctx.mk (Some (image_section no_files_region 0)) Null (Ptr 101 0) 0 104
         (firstn 80 no_files_region) 24 (Ptr 1 0) 0 (Ptr 2 0) 0x68.

(** ** Releasable pointers *)

(** A pointer [free] accepts: the null pointer, or the base of a live
    buffer. *)
Definition releasable (h : heap) (p : ptr) : Prop :=
  p = Null \/ exists b, p = Ptr b 0 /\ is_Some (h !! b).

(** A second context, whose tables live in buffers of their own next to
    those of the example archive. *)
Definition shared_heap : heap :=
  <[3%positive := lone_root_table]> (<[4%positive := []]> example_heap).

Definition other_context : Ctx.t :=
  Ctx.mk (Some (image_section no_files_region 0)) Null (Ptr 101 0) 0 104
         (firstn 80 no_files_region) 24 (Ptr 3 0) 0 (Ptr 4 0) 0x68.

(** A context whose two table pointers are the same buffer. *)
Definition aliased_context : Ctx.t :=
  Ctx.mk (Some example_section) Null (Ptr 101 0) 16 256 example_header
         52 (Ptr 1 0) 52 (Ptr 1 0) 0xF0.







(** * Properties *)


(** ** Machine arithmetic *)

Lemma add64_small (a b : Z) :
  is_u32 a -> 0 <= b < u32_max -> add64 a b = a + b.
Proof.
  unfold is_u32, add64, u32_max, u64_max. intros Ha Hb.
  apply Z.mod_small. lia.
Qed.

Lemma void_entry_is_u32 : is_u32 ROMFS_VOID_ENTRY.
Proof. unfold is_u32, ROMFS_VOID_ENTRY, u32_max. lia. Qed.

Lemma is_null_true (p : ptr) : is_null p = true <-> p = Null.
Proof. destruct p; simpl; split; congruence. Qed.

Lemma is_null_false (p : ptr) : is_null p = false <-> p <> Null.
Proof. destruct p; simpl; split; congruence. Qed.

(** ** The entry resolvers *)

Lemma romfsGetDirectoryEntry_loaded (c : Ctx.t) (o : Z) :
  is_u32 o ->
  Ctx.dir_table c <> Null ->
  romfsGetDirectoryEntry (Some c) o =
  if Ctx.dir_table_size c <? o + 24 then Null else ptr_add (Ctx.dir_table c) o.
Proof.
  intros Ho Hnn. unfold romfsGetDirectoryEntry.
  apply is_null_false in Hnn. rewrite Hnn. simpl.
  rewrite add64_small; [reflexivity | assumption |].
  unfold DirEntry.sizeof, u32_max. lia.
Qed.

Lemma romfsGetFileEntry_loaded (c : Ctx.t) (o : Z) :
  is_u32 o ->
  Ctx.file_table c <> Null ->
  romfsGetFileEntry (Some c) o =
  if Ctx.file_table_size c <? o + 32 then Null else ptr_add (Ctx.file_table c) o.
Proof.
  intros Ho Hnn. unfold romfsGetFileEntry.
  apply is_null_false in Hnn. rewrite Hnn. simpl.
  rewrite add64_small; [reflexivity | assumption |].
  unfold FileEntry.sizeof, u32_max. lia.
Qed.

Lemma resolver_shape_dir (c : Ctx.t) (o : Z) :
  is_u32 o ->
  Ctx.dir_table c <> Null ->
  o + 24 <= Ctx.dir_table_size c ->
  romfsGetDirectoryEntry (Some c) o = ptr_add (Ctx.dir_table c) o.
Proof.
  intros Ho Hnn Hb. rewrite romfsGetDirectoryEntry_loaded by assumption.
  destruct (Z.ltb_spec (Ctx.dir_table_size c) (o + 24)); [lia | reflexivity].
Qed.

Lemma resolver_shape_file (c : Ctx.t) (o : Z) :
  is_u32 o ->
  Ctx.file_table c <> Null ->
  o + 32 <= Ctx.file_table_size c ->
  romfsGetFileEntry (Some c) o = ptr_add (Ctx.file_table c) o.
Proof.
  intros Ho Hnn Hb. rewrite romfsGetFileEntry_loaded by assumption.
  destruct (Z.ltb_spec (Ctx.file_table_size c) (o + 32)); [lia | reflexivity].
Qed.

(** C1. For a context whose table is loaded and every [u32] offset [o],
    [romfsGetDirectoryEntry] answers [NULL] when [o + 24] exceeds the
    directory table size and the pointer [dir_table + o] otherwise;
    [romfsGetFileEntry] does the same with the 32-byte fixed part of a file
    entry and the file table. *)
Theorem resolver_is_fixed_record_bounds_check (c : Ctx.t) (o : Z) :
  is_u32 o ->
  (Ctx.dir_table c <> Null ->
   (o + 24 > Ctx.dir_table_size c -> romfsGetDirectoryEntry (Some c) o = Null) /\
   (o + 24 <= Ctx.dir_table_size c ->
    romfsGetDirectoryEntry (Some c) o = ptr_add (Ctx.dir_table c) o)) /\
  (Ctx.file_table c <> Null ->
   (o + 32 > Ctx.file_table_size c -> romfsGetFileEntry (Some c) o = Null) /\
   (o + 32 <= Ctx.file_table_size c ->
    romfsGetFileEntry (Some c) o = ptr_add (Ctx.file_table c) o)).
Proof.
  intros Ho. split; intros Hnn.
  - rewrite romfsGetDirectoryEntry_loaded by assumption.
    split; intros Hb.
    + destruct (Z.ltb_spec (Ctx.dir_table_size c) (o + 24)); [reflexivity | lia].
    + destruct (Z.ltb_spec (Ctx.dir_table_size c) (o + 24)); [lia | reflexivity].
  - rewrite romfsGetFileEntry_loaded by assumption.
    split; intros Hb.
    + destruct (Z.ltb_spec (Ctx.file_table_size c) (o + 32)); [reflexivity | lia].
    + destruct (Z.ltb_spec (Ctx.file_table_size c) (o + 32)); [lia | reflexivity].
Qed.

Lemma resolver_is_fixed_record_bounds_check_witness :
  is_u32 24 /\
  romfsGetDirectoryEntry (Some example_context) 24 = Ptr 1 24 /\
  romfsGetFileEntry (Some example_context) 24 = Ptr 2 24.
Proof.
  assert (H24 : is_u32 24) by (unfold is_u32, u32_max; lia).
  destruct (resolver_is_fixed_record_bounds_check example_context 24 H24)
    as [Hd Hf].
  split; [exact H24 | split].
  - apply Hd; [discriminate | simpl; lia].
  - apply Hf; [discriminate | simpl; lia].
Defined.

(** C2, as amended. The sentinel offset is rejected by the bounds check
    alone: [romfsGetDirectoryEntry] answers [NULL] on [0xFFFFFFFF] whenever
    the directory table size is below [0xFFFFFFFF + 24], and
    [romfsGetFileEntry] whenever the file table size is below
    [0xFFFFFFFF + 32]; every table size that fits in 32 bits is below
    both. *)
Theorem sentinel_rejected_below_4GiB (c : Ctx.t) :
  (Ctx.dir_table_size c < ROMFS_VOID_ENTRY + 24 ->
   romfsGetDirectoryEntry (Some c) ROMFS_VOID_ENTRY = Null) /\
  (Ctx.file_table_size c < ROMFS_VOID_ENTRY + 32 ->
   romfsGetFileEntry (Some c) ROMFS_VOID_ENTRY = Null) /\
  (Ctx.dir_table_size c < u32_max -> Ctx.dir_table_size c < ROMFS_VOID_ENTRY + 24) /\
  (Ctx.file_table_size c < u32_max -> Ctx.file_table_size c < ROMFS_VOID_ENTRY + 32).
Proof.
  split; [| split; [| unfold u32_max, ROMFS_VOID_ENTRY; lia]].
  - intros Hlt. unfold romfsGetDirectoryEntry.
    destruct (is_null (Ctx.dir_table c)); [reflexivity |]. simpl.
    rewrite add64_small; [| apply void_entry_is_u32 | unfold DirEntry.sizeof, u32_max; lia].
    unfold DirEntry.sizeof.
    destruct (Z.ltb_spec (Ctx.dir_table_size c) (ROMFS_VOID_ENTRY + 24));
      [reflexivity | lia].
  - intros Hlt. unfold romfsGetFileEntry.
    destruct (is_null (Ctx.file_table c)); [reflexivity |]. simpl.
    rewrite add64_small; [| apply void_entry_is_u32 | unfold FileEntry.sizeof, u32_max; lia].
    unfold FileEntry.sizeof.
    destruct (Z.ltb_spec (Ctx.file_table_size c) (ROMFS_VOID_ENTRY + 32));
      [reflexivity | lia].
Qed.

Lemma sentinel_rejected_below_4GiB_witness :
  romfsGetDirectoryEntry (Some example_context) ROMFS_VOID_ENTRY = Null /\
  romfsGetFileEntry (Some example_context) ROMFS_VOID_ENTRY = Null.
Proof.
  destruct (sentinel_rejected_below_4GiB example_context) as (Hd & Hf & _).
  split; [apply Hd | apply Hf]; vm_compute; reflexivity.
Defined.

Lemma huge_heap_initialized : initialized huge_heap huge_context.
Proof.
  split.
  - exists 1%positive, (repeat x00 (Z.to_nat huge_table_size)).
    split; [reflexivity |]. split.
    + unfold huge_heap. apply lookup_insert_eq.
    + rewrite repeat_length, Z2Nat.id by (unfold huge_table_size; lia).
      reflexivity.
  - exists 2%positive, (repeat x00 (Z.to_nat huge_table_size)).
    split; [reflexivity |]. split.
    + unfold huge_heap. rewrite lookup_insert_ne by discriminate.
      apply lookup_insert_eq.
    + rewrite repeat_length, Z2Nat.id by (unfold huge_table_size; lia).
      reflexivity.
Qed.

(** C2, as stated, fails: in an initialized context whose (nonzero, 64-bit)
    directory table size is [0x100000017], the sentinel offset passes the
    bounds check and resolves to the view at [dir_table + 0xFFFFFFFF]. *)
Lemma sentinel_resolves_in_huge_table :
  initialized huge_heap huge_context /\
  Ctx.dir_table_size huge_context <> 0 /\
  is_u64 (Ctx.dir_table_size huge_context) /\
  romfsGetDirectoryEntry (Some huge_context) ROMFS_VOID_ENTRY = Ptr 1 0xFFFFFFFF /\
  romfsGetDirectoryEntry (Some huge_context) ROMFS_VOID_ENTRY <> Null.
Proof.
  split; [apply huge_heap_initialized |].
  split; [discriminate |].
  split; [unfold is_u64, u64_max; simpl; unfold huge_table_size; lia |].
  assert (E : romfsGetDirectoryEntry (Some huge_context) ROMFS_VOID_ENTRY
              = Ptr 1 0xFFFFFFFF) by (vm_compute; reflexivity).
  split; [exact E | rewrite E; discriminate].
Qed.

(** In an initialized context an offset fails to resolve exactly when the
    resolver answers [NULL], that is when the bounds check fails. *)
Lemma resolve_dir_initialized (h : heap) (c : Ctx.t) (o : Z) :
  initialized h c -> is_u32 o ->
  (resolve_dir h c o = None <-> romfsGetDirectoryEntry (Some c) o = Null) /\
  (romfsGetDirectoryEntry (Some c) o = Null <-> o + 24 > Ctx.dir_table_size c).
Proof.
  intros [(b & bs & Hp & Hb & Hlen) _] Ho.
  assert (Hnn : Ctx.dir_table c <> Null) by (rewrite Hp; discriminate).
  unfold resolve_dir. rewrite (romfsGetDirectoryEntry_loaded c o Ho Hnn).
  destruct (Z.ltb_spec (Ctx.dir_table_size c) (o + 24)) as [Hlt|Hge].
  - split; split; intros; try reflexivity; lia.
  - rewrite Hp. cbn [ptr_add]. unfold load_dir_entry, load. rewrite Hb.
    destruct Ho as [Ho0 _].
    replace ((0 <=? 0 + o) && (0 <=? DirEntry.sizeof)
             && (0 + o + DirEntry.sizeof <=? Z.of_nat (length bs))) with true.
    + cbn. split; split; intros; try discriminate; lia.
    + symmetry. rewrite !andb_true_iff, !Z.leb_le. unfold DirEntry.sizeof. lia.
Qed.

Lemma resolve_file_initialized (h : heap) (c : Ctx.t) (o : Z) :
  initialized h c -> is_u32 o ->
  (resolve_file h c o = None <-> romfsGetFileEntry (Some c) o = Null) /\
  (romfsGetFileEntry (Some c) o = Null <-> o + 32 > Ctx.file_table_size c).
Proof.
  intros [_ (b & bs & Hp & Hb & Hlen)] Ho.
  assert (Hnn : Ctx.file_table c <> Null) by (rewrite Hp; discriminate).
  unfold resolve_file. rewrite (romfsGetFileEntry_loaded c o Ho Hnn).
  destruct (Z.ltb_spec (Ctx.file_table_size c) (o + 32)) as [Hlt|Hge].
  - split; split; intros; try reflexivity; lia.
  - rewrite Hp. cbn [ptr_add]. unfold load_file_entry, load. rewrite Hb.
    destruct Ho as [Ho0 _].
    replace ((0 <=? 0 + o) && (0 <=? FileEntry.sizeof)
             && (0 + o + FileEntry.sizeof <=? Z.of_nat (length bs))) with true.
    + cbn. split; split; intros; try discriminate; lia.
    + symmetry. rewrite !andb_true_iff, !Z.leb_le. unfold FileEntry.sizeof. lia.
Qed.

(** C3. Resolution checks the fixed part of a record only. Let the fixed
    part of the entry at offset [o] fit in its table and let the record
    stored there carry a name length that runs past the end of the table:
    the resolver still answers the view at [table + o], the record is read
    through it, and the caller's name-bounds check
    [o + fixed_record_size + name_length <= table_size] fails. *)
Theorem resolver_ignores_name_length (h : heap) (c : Ctx.t) (o : Z) :
  is_u32 o ->
  (forall de,
     o + 24 <= Ctx.dir_table_size c ->
     load_dir_entry h (ptr_add (Ctx.dir_table c) o) = Some de ->
     o + 24 + DirEntry.name_length de > Ctx.dir_table_size c ->
     romfsGetDirectoryEntry (Some c) o = ptr_add (Ctx.dir_table c) o /\
     resolve_dir h c o = Some de /\
     name_in_bounds (Ctx.dir_table_size c) o 24 (DirEntry.name_length de) = false) /\
  (forall fe,
     o + 32 <= Ctx.file_table_size c ->
     load_file_entry h (ptr_add (Ctx.file_table c) o) = Some fe ->
     o + 32 + FileEntry.name_length fe > Ctx.file_table_size c ->
     romfsGetFileEntry (Some c) o = ptr_add (Ctx.file_table c) o /\
     resolve_file h c o = Some fe /\
     name_in_bounds (Ctx.file_table_size c) o 32 (FileEntry.name_length fe) = false).
Proof.
  intros Ho. split.
  - intros de Hfix Hld Hname.
    assert (Hnn : Ctx.dir_table c <> Null).
    { intros E. rewrite E in Hld. discriminate. }
    assert (Hres : romfsGetDirectoryEntry (Some c) o = ptr_add (Ctx.dir_table c) o).
    { apply (resolver_shape_dir c o Ho Hnn). exact Hfix. }
    split; [exact Hres |]. split.
    + unfold resolve_dir. rewrite Hres. exact Hld.
    + unfold name_in_bounds. apply Z.leb_gt. lia.
  - intros fe Hfix Hld Hname.
    assert (Hnn : Ctx.file_table c <> Null).
    { intros E. rewrite E in Hld. discriminate. }
    assert (Hres : romfsGetFileEntry (Some c) o = ptr_add (Ctx.file_table c) o).
    { apply (resolver_shape_file c o Ho Hnn). exact Hfix. }
    split; [exact Hres |]. split.
    + unfold resolve_file. rewrite Hres. exact Hld.
    + unfold name_in_bounds. apply Z.leb_gt. lia.
Qed.

Lemma resolver_ignores_name_length_witness :
  is_u32 0 /\
  (romfsGetDirectoryEntry (Some truncated_context) 0 = Ptr 1 0 /\
   DirEntry.name_length <$> resolve_dir truncated_heap truncated_context 0 = Some 9 /\
   name_in_bounds 24 0 24 9 = false) /\
  (romfsGetFileEntry (Some truncated_context) 0 = Ptr 2 0 /\
   FileEntry.name_length <$> resolve_file truncated_heap truncated_context 0 = Some 9 /\
   name_in_bounds 32 0 32 9 = false).
Proof.
  assert (H0 : is_u32 0) by (unfold is_u32, u32_max; lia).
  destruct (resolver_ignores_name_length truncated_heap truncated_context 0 H0)
    as [Hd Hf].
  split; [exact H0 | split].
  - destruct (Hd (DirEntry.mk ROMFS_VOID_ENTRY ROMFS_VOID_ENTRY ROMFS_VOID_ENTRY
                    ROMFS_VOID_ENTRY ROMFS_VOID_ENTRY 9))
      as (R1 & R2 & R3);
      [simpl; lia | vm_compute; reflexivity | simpl; lia |].
    split; [exact R1 | split; [rewrite R2; reflexivity | exact R3]].
  - destruct (Hf (FileEntry.mk 0 ROMFS_VOID_ENTRY 0 3 ROMFS_VOID_ENTRY 9))
      as (R1 & R2 & R3);
      [simpl; lia | vm_compute; reflexivity | simpl; lia |].
    split; [exact R1 | split; [rewrite R2; reflexivity | exact R3]].
Defined.

(** ** Release *)

Lemma romfsFreeContext_zero (m : machine) :
  romfsFreeContext (Some Ctx.zero) m = Some (Some Ctx.zero, m).
Proof. reflexivity. Qed.

Lemma romfsFreeContext_result (c : Ctx.t) (m : machine) ctx1 m1 :
  romfsFreeContext (Some c) m = Some (ctx1, m1) -> ctx1 = Some Ctx.zero.
Proof.
  unfold romfsFreeContext, mbind, M_bind, mret, M_ret.
  destruct (if is_null (Ctx.dir_table c) then _ else _) as [[[] m']|];
    [| discriminate].
  destruct (if is_null (Ctx.file_table c) then _ else _) as [[[] m'']|];
    [| discriminate].
  intros E. injection E as <- _. reflexivity.
Qed.

(** C9. Release is idempotent: after a first [romfsFreeContext] the
    structure is all zeroes, and a second call on it is defined, releases
    nothing (the heap and the log of effects are unchanged) and leaves the
    structure as it was. *)
Theorem romfsFreeContext_idempotent (c : Ctx.t) (m : machine) ctx1 m1 :
  romfsFreeContext (Some c) m = Some (ctx1, m1) ->
  ctx1 = Some Ctx.zero /\
  romfsFreeContext ctx1 m1 = Some (ctx1, m1).
Proof.
  intros H1. apply romfsFreeContext_result in H1 as ->.
  split; [reflexivity | apply romfsFreeContext_zero].
Qed.

Lemma romfsFreeContext_idempotent_witness :
  romfsFreeContext (Some example_context) (Machine example_heap [])
  = Some (Some Ctx.zero, Machine ∅ [EvFree (Ptr 1 0); EvFree (Ptr 2 0)]) /\
  romfsFreeContext (Some Ctx.zero)
    (Machine ∅ [EvFree (Ptr 1 0); EvFree (Ptr 2 0)])
  = Some (Some Ctx.zero, Machine ∅ [EvFree (Ptr 1 0); EvFree (Ptr 2 0)]).
Proof.
  assert (E : romfsFreeContext (Some example_context) (Machine example_heap [])
              = Some (Some Ctx.zero, Machine ∅ [EvFree (Ptr 1 0); EvFree (Ptr 2 0)]))
    by (vm_compute; reflexivity).
  split; [exact E |].
  exact (proj2 (romfsFreeContext_idempotent _ _ _ _ E)).
Defined.

(** C10. With a null context both resolvers answer [NULL] at every
    offset, and so they do when the table pointer of the context is null;
    [romfsFreeContext] on a null context returns at once: nothing is
    released and the machine is left as it was. *)
Theorem null_arguments_are_handled :
  (forall o, romfsGetDirectoryEntry None o = Null) /\
  (forall o, romfsGetFileEntry None o = Null) /\
  (forall c o, Ctx.dir_table c = Null -> romfsGetDirectoryEntry (Some c) o = Null) /\
  (forall c o, Ctx.file_table c = Null -> romfsGetFileEntry (Some c) o = Null) /\
  (forall m, romfsFreeContext None m = Some (None, m)).
Proof.
  repeat split.
  - intros c o E. unfold romfsGetDirectoryEntry. rewrite E. reflexivity.
  - intros c o E. unfold romfsGetFileEntry. rewrite E. reflexivity.
Qed.

Lemma null_arguments_are_handled_witness :
  romfsGetDirectoryEntry (Some Ctx.zero) 0 = Null /\
  romfsGetFileEntry (Some Ctx.zero) 0 = Null.
Proof.
  destruct null_arguments_are_handled as (_ & _ & Hd & Hf & _).
  split; [apply Hd | apply Hf]; reflexivity.
Defined.

(** ** Header parsing *)

Lemma byte_val_range (b : byte) : 0 <= byte_val b < 256.
Proof. destruct b; vm_compute; split; congruence. Qed.

Lemma le_decode_low_high (l : list byte) :
  le_decode (firstn 8 l)
  = le_decode (firstn 4 l) + u32_max * le_decode (firstn 4 (skipn 4 l)).
Proof.
  unfold u32_max.
  destruct l as [|b0 [|b1 [|b2 [|b3 [|b4 [|b5 [|b6 [|b7 rest]]]]]]]];
    cbn [firstn skipn le_decode]; lia.
Qed.

Lemma le_decode_first4 (l : list byte) : 0 <= le_decode (firstn 4 l) < u32_max.
Proof.
  unfold u32_max.
  destruct l as [|b0 [|b1 [|b2 [|b3 rest]]]];
    cbn [firstn le_decode]; rewrite ?firstn_O; cbn [le_decode];
    try pose proof (byte_val_range b0); try pose proof (byte_val_range b1);
    try pose proof (byte_val_range b2); try pose proof (byte_val_range b3); lia.
Qed.

(** The low half of the 64-bit size field is the 32-bit size field. *)
Lemma size_fields_overlap (hdr : list byte) :
  field_u64 hdr 0 mod u32_max = field_u32 hdr 0.
Proof.
  unfold field_u64, field_u32, slice. simpl Z.to_nat. cbn [skipn].
  rewrite le_decode_low_high, (Z.mul_comm u32_max), Z.mod_add
    by (unfold u32_max; lia).
  apply Z.mod_small, le_decode_first4.
Qed.

(** The two layouts exclude one another. *)
Lemma legacy_excludes_current (hdr : list byte) :
  field_u32 hdr 0 = ROMFS_OLD_HEADER_SIZE -> field_u64 hdr 0 <> ROMFS_HEADER_SIZE.
Proof.
  intros H32 H64. pose proof (size_fields_overlap hdr) as Hov.
  rewrite H32, H64 in Hov. vm_compute in Hov. discriminate.
Qed.

(** ** Effects *)

Ltac run_M :=
  unfold section_read, section_read_verified, emit, mbind, M_bind, mret, M_ret;
  cbn [mem trace].

Lemma fresh_block_unused (h : heap) : h !! fresh (dom h) = None.
Proof. apply not_elem_of_dom, is_fresh. Qed.

Lemma load_table_ok (r : NcaFsSectionContext.t) (off sz : Z) (bs : list byte)
    (m : machine) :
  exactly sz (NcaFsSectionContext.read r (NcaFsSectionContext.region_offset r + off) sz)
  = Some bs ->
  load_table r off sz m
  = Some (Ok (Ptr (fresh (dom (mem m))) 0),
          Machine (<[fresh (dom (mem m)) := bs]> (mem m))
                  (trace m ++ [EvAlloc (fresh (dom (mem m))) sz;
                               EvRead (NcaFsSectionContext.region_offset r + off) sz])).
Proof.
  intros Hrd. unfold load_table, malloc, fill. run_M. rewrite Hrd. cbn [mem trace].
  rewrite lookup_insert_eq, insert_insert_eq, <- app_assoc. reflexivity.
Qed.

Lemma load_table_failed (r : NcaFsSectionContext.t) (off sz : Z) (m : machine) :
  exactly sz (NcaFsSectionContext.read r (NcaFsSectionContext.region_offset r + off) sz)
  = None ->
  load_table r off sz m
  = Some (Err IOError,
          Machine (mem m)
                  (trace m ++ [EvAlloc (fresh (dom (mem m))) sz;
                               EvRead (NcaFsSectionContext.region_offset r + off) sz;
                               EvFree (Ptr (fresh (dom (mem m))) 0)])).
Proof.
  intros Hrd. unfold load_table, malloc, free. run_M. rewrite Hrd. cbn [mem trace].
  rewrite lookup_insert_eq. cbn.
  rewrite delete_insert_id by apply fresh_block_unused.
  rewrite <- !app_assoc. reflexivity.
Qed.

Lemma exactly_length (len : Z) (r : option (list byte)) (bs : list byte) :
  exactly len r = Some bs -> r = Some bs /\ Z.of_nat (length bs) = len.
Proof.
  unfold exactly. destruct r as [l|]; [| discriminate].
  destruct (Z.eqb_spec (Z.of_nat (length l)) len); [| discriminate].
  intros E. injection E as <-. auto.
Qed.

Lemma exactly_intro (len : Z) (r : option (list byte)) (bs : list byte) :
  r = Some bs -> Z.of_nat (length bs) = len -> exactly len r = Some bs.
Proof. intros -> <-. unfold exactly. rewrite Z.eqb_refl. reflexivity. Qed.

(** ** Initialization *)

Lemma romfsInitializeContext_parsed (r : NcaFsSectionContext.t) (m : machine)
    (hdr : list byte) :
  exactly ROMFS_HEADER_SIZE
    (NcaFsSectionContext.read r (NcaFsSectionContext.region_offset r) ROMFS_HEADER_SIZE)
  = Some hdr ->
  parse_header hdr = Err FormatError ->
  romfsInitializeContext r m
  = Some (Err FormatError,
          Machine (mem m)
            (trace m ++ [EvRead (NcaFsSectionContext.region_offset r) ROMFS_HEADER_SIZE])).
Proof.
  intros Hrd Hp. unfold romfsInitializeContext. run_M. rewrite Hrd, Hp. reflexivity.
Qed.

(** C4. The layout is chosen by the size field alone. If the 32-bit size
    field is [0x28] the header is the legacy one, its nine other fields read
    as 32-bit values, and the 64-bit size field cannot be [0x50]; otherwise,
    if the 64-bit size field is [0x50] the header is the current one, its
    fields read as 64-bit values; in every other case parsing fails with a
    format error, and so does [romfsInitializeContext], right after the
    header read. *)
Theorem header_layout_selection (hdr : RomFileSystemHeader.t) :
  (field_u32 hdr 0 = ROMFS_OLD_HEADER_SIZE ->
   parse_header hdr
   = Ok (Header.mk LegacyLayout
           (field_u32 hdr 4) (field_u32 hdr 8) (field_u32 hdr 12) (field_u32 hdr 16)
           (field_u32 hdr 20) (field_u32 hdr 24) (field_u32 hdr 28) (field_u32 hdr 32)
           (field_u32 hdr 36)) /\
   field_u64 hdr 0 <> ROMFS_HEADER_SIZE) /\
  (field_u32 hdr 0 <> ROMFS_OLD_HEADER_SIZE ->
   field_u64 hdr 0 = ROMFS_HEADER_SIZE ->
   parse_header hdr
   = Ok (Header.mk CurrentLayout
           (field_u64 hdr 8) (field_u64 hdr 16) (field_u64 hdr 24) (field_u64 hdr 32)
           (field_u64 hdr 40) (field_u64 hdr 48) (field_u64 hdr 56) (field_u64 hdr 64)
           (field_u64 hdr 72))) /\
  (field_u32 hdr 0 <> ROMFS_OLD_HEADER_SIZE ->
   field_u64 hdr 0 <> ROMFS_HEADER_SIZE ->
   parse_header hdr = Err FormatError /\
   forall r m,
     exactly ROMFS_HEADER_SIZE
       (NcaFsSectionContext.read r (NcaFsSectionContext.region_offset r)
          ROMFS_HEADER_SIZE) = Some hdr ->
     romfsInitializeContext r m
     = Some (Err FormatError,
             Machine (mem m)
               (trace m ++ [EvRead (NcaFsSectionContext.region_offset r)
                              ROMFS_HEADER_SIZE]))).
Proof.
  assert (Hbad : field_u32 hdr 0 <> ROMFS_OLD_HEADER_SIZE ->
                 field_u64 hdr 0 <> ROMFS_HEADER_SIZE ->
                 parse_header hdr = Err FormatError).
  { intros H32 H64. unfold parse_header. cbn.
    destruct (Z.eqb_spec (field_u32 hdr 0) ROMFS_OLD_HEADER_SIZE); [contradiction |].
    destruct (Z.eqb_spec (field_u64 hdr 0) ROMFS_HEADER_SIZE); [contradiction |].
    reflexivity. }
  split; [| split].
  - intros H32. split; [| apply legacy_excludes_current; exact H32].
    unfold parse_header. cbn. rewrite H32. reflexivity.
  - intros H32 H64. unfold parse_header. cbn.
    destruct (Z.eqb_spec (field_u32 hdr 0) ROMFS_OLD_HEADER_SIZE); [contradiction |].
    rewrite H64. reflexivity.
  - intros H32 H64. split; [apply Hbad; assumption |].
    intros r m Hrd. apply (romfsInitializeContext_parsed r m hdr Hrd).
    apply Hbad; assumption.
Qed.

Lemma header_layout_selection_witness :
  (parse_header legacy_header
   = Ok (Header.mk LegacyLayout 0x50 0 0x50 52 0x84 0 0x84 108 0xF0) /\
   field_u64 legacy_header 0 <> ROMFS_HEADER_SIZE) /\
  parse_header example_header
  = Ok (Header.mk CurrentLayout 0x50 0 0x50 52 0x84 0 0x84 108 0xF0) /\
  parse_header bad_header = Err FormatError /\
  romfsInitializeContext (image_section bad_header 0) (Machine ∅ [])
  = Some (Err FormatError, Machine ∅ [EvRead 0 0x50]).
Proof.
  split; [| split].
  - apply (proj1 (header_layout_selection legacy_header)).
    vm_compute. reflexivity.
  - apply (proj1 (proj2 (header_layout_selection example_header)));
      vm_compute; congruence.
  - destruct (proj2 (proj2 (header_layout_selection bad_header))) as [Hp Hi];
      [vm_compute; congruence | vm_compute; congruence |].
    split; [exact Hp |].
    apply (Hi (image_section bad_header 0) (Machine ∅ [])).
    vm_compute. reflexivity.
Defined.

(** Initialization always returns, and when it fails it has released every
    buffer it allocated: the heap is the one it started from. *)
Lemma romfsInitializeContext_failure_releases (r : NcaFsSectionContext.t)
    (m : machine) :
  exists res m',
    romfsInitializeContext r m = Some (res, m') /\
    (forall e, res = Err e -> mem m' = mem m).
Proof.
  unfold romfsInitializeContext. run_M.
  destruct (exactly ROMFS_HEADER_SIZE _) as [hdr|];
    [| eexists _, _; split; [reflexivity | intros; reflexivity]].
  destruct (parse_header hdr) as [nh|e0];
    [| eexists _, _; split; [reflexivity | intros; reflexivity]].
  destruct (Header.directory_entry_size nh =? 0);
    [eexists _, _; split; [reflexivity | intros; reflexivity] |].
  set (m0 := Machine (mem m) _).
  destruct (exactly (Header.directory_entry_size nh)
              (NcaFsSectionContext.read r
                 (NcaFsSectionContext.region_offset r + Header.directory_entry_offset nh)
                 (Header.directory_entry_size nh))) as [dbs|] eqn:Hd.
  - rewrite (load_table_ok _ _ _ _ m0 Hd).
    set (m1 := Machine (<[_ := dbs]> _) _).
    destruct (exactly (Header.file_entry_size nh)
                (NcaFsSectionContext.read r
                   (NcaFsSectionContext.region_offset r + Header.file_entry_offset nh)
                   (Header.file_entry_size nh))) as [fbs|] eqn:Hf.
    + rewrite (load_table_ok _ _ _ _ m1 Hf).
      eexists _, _; split; [reflexivity | intros; discriminate].
    + rewrite (load_table_failed _ _ _ m1 Hf). unfold free. cbn.
      rewrite lookup_insert_eq. cbn.
      eexists _, _; split; [reflexivity |]. intros _ _. cbn.
      apply delete_insert_id, fresh_block_unused.
  - rewrite (load_table_failed _ _ _ m0 Hd).
    eexists _, _; split; [reflexivity | intros; reflexivity].
Qed.

(** A context produced by initialization holds its section reader and
    has both tables loaded. *)
Lemma romfsInitializeContext_initialized (r : NcaFsSectionContext.t)
    (m m' : machine) (c : Ctx.t) :
  romfsInitializeContext r m = Some (Ok c, m') ->
  Ctx.nca_fs_ctx c = Some r /\ initialized (mem m') c.
Proof.
  unfold romfsInitializeContext. run_M.
  destruct (exactly ROMFS_HEADER_SIZE _) as [hdr|]; [| discriminate].
  destruct (parse_header hdr) as [nh|e0]; [| discriminate].
  destruct (Header.directory_entry_size nh =? 0); [discriminate |].
  set (m0 := Machine (mem m) _).
  destruct (exactly (Header.directory_entry_size nh)
              (NcaFsSectionContext.read r
                 (NcaFsSectionContext.region_offset r + Header.directory_entry_offset nh)
                 (Header.directory_entry_size nh))) as [dbs|] eqn:Hd;
    [rewrite (load_table_ok _ _ _ _ m0 Hd)
    | rewrite (load_table_failed _ _ _ m0 Hd); discriminate].
  set (b1 := fresh (dom (mem m0))).
  set (m1 := Machine (<[b1 := dbs]> _) _).
  destruct (exactly (Header.file_entry_size nh)
              (NcaFsSectionContext.read r
                 (NcaFsSectionContext.region_offset r + Header.file_entry_offset nh)
                 (Header.file_entry_size nh))) as [fbs|] eqn:Hf;
    [rewrite (load_table_ok _ _ _ _ m1 Hf)
    | rewrite (load_table_failed _ _ _ m1 Hf); unfold free; cbn;
      rewrite lookup_insert_eq; discriminate].
  set (b2 := fresh (dom (mem m1))).
  intros E. injection E as <- <-. split; [reflexivity |].
  assert (Hne : b2 <> b1).
  { intros E. pose proof (fresh_block_unused (mem m1)) as Hfr.
    fold b2 in Hfr. rewrite E in Hfr. subst m1. cbn in Hfr.
    rewrite lookup_insert_eq in Hfr. discriminate. }
  split; cbn.
  - exists b1, dbs. split; [reflexivity |]. split.
    + rewrite lookup_insert_ne by exact Hne. apply lookup_insert_eq.
    + apply exactly_length in Hd. tauto.
  - exists b2, fbs. split; [reflexivity |]. split.
    + apply lookup_insert_eq.
    + apply exactly_length in Hf. tauto.
Qed.

(** C6. Once the header is read and parsed: a directory table of size zero
    makes [romfsInitializeContext] fail with a format error when the header
    read is the only effect so far (no buffer allocated, no table read, the
    heap untouched); a file table of size zero is accepted, and with the
    directory table read the context is produced, both tables loaded. *)
Theorem table_size_validation (r : NcaFsSectionContext.t) (m : machine)
    (hdr : list byte) (nh : Header.t) :
  exactly ROMFS_HEADER_SIZE
    (NcaFsSectionContext.read r (NcaFsSectionContext.region_offset r) ROMFS_HEADER_SIZE)
  = Some hdr ->
  parse_header hdr = Ok nh ->
  (Header.directory_entry_size nh = 0 ->
   romfsInitializeContext r m
   = Some (Err FormatError,
           Machine (mem m)
             (trace m ++ [EvRead (NcaFsSectionContext.region_offset r)
                            ROMFS_HEADER_SIZE]))) /\
  (Header.directory_entry_size nh <> 0 ->
   Header.file_entry_size nh = 0 ->
   forall dbs,
     exactly (Header.directory_entry_size nh)
       (NcaFsSectionContext.read r
          (NcaFsSectionContext.region_offset r + Header.directory_entry_offset nh)
          (Header.directory_entry_size nh)) = Some dbs ->
     exactly 0
       (NcaFsSectionContext.read r
          (NcaFsSectionContext.region_offset r + Header.file_entry_offset nh) 0)
     = Some [] ->
     exists c m',
       romfsInitializeContext r m = Some (Ok c, m') /\
       Ctx.file_table_size c = 0 /\
       Ctx.dir_table_size c = Header.directory_entry_size nh /\
       initialized (mem m') c).
Proof.
  intros Hrd Hp. split.
  - intros Hz. unfold romfsInitializeContext. run_M. rewrite Hrd, Hp, Hz.
    reflexivity.
  - intros Hnz Hfz dbs Hd Hf.
    unfold romfsInitializeContext. run_M. rewrite Hrd, Hp.
    destruct (Z.eqb_spec (Header.directory_entry_size nh) 0); [contradiction |].
    set (m0 := Machine (mem m) _).
    rewrite (load_table_ok _ _ _ _ m0 Hd).
    set (b1 := fresh (dom (mem m0))).
    set (m1 := Machine (<[b1 := dbs]> _) _).
    rewrite Hfz in *.
    rewrite (load_table_ok _ _ _ _ m1 Hf).
    set (b2 := fresh (dom (mem m1))).
    eexists _, _. split; [reflexivity |].
    split; [reflexivity |]. split; [reflexivity |].
    assert (Hne : b2 <> b1).
    { intros E. pose proof (fresh_block_unused (mem m1)) as Hfr.
      fold b2 in Hfr. rewrite E in Hfr. subst m1. cbn in Hfr.
      rewrite lookup_insert_eq in Hfr. discriminate. }
    split; cbn.
    + exists b1, dbs. split; [reflexivity |]. split.
      * rewrite lookup_insert_ne by exact Hne. apply lookup_insert_eq.
      * apply exactly_length in Hd. tauto.
    + exists b2, []. split; [reflexivity |]. split.
      * apply lookup_insert_eq.
      * reflexivity.
Qed.

Lemma table_size_validation_witness :
  romfsInitializeContext (image_section no_dirs_region 0) (Machine ∅ [])
  = Some (Err FormatError, Machine ∅ [EvRead 0 0x50]) /\
  exists c m',
    romfsInitializeContext (image_section no_files_region 0) (Machine ∅ [])
    = Some (Ok c, m') /\
    Ctx.file_table_size c = 0 /\
    Ctx.dir_table_size c = 24 /\
    initialized (mem m') c.
Proof.
  split.
  - apply (proj1 (table_size_validation (image_section no_dirs_region 0)
                    (Machine ∅ []) no_dirs_region
                    (Header.mk CurrentLayout 0x50 0 0x50 0 0x50 0 0x50 0 0x50)
                    eq_refl eq_refl)).
    reflexivity.
  - apply (proj2 (table_size_validation (image_section no_files_region 0)
                    (Machine ∅ []) (firstn 80 no_files_region)
                    (Header.mk CurrentLayout 0x50 0 0x50 24 0x68 0 0x68 0 0x68)
                    eq_refl eq_refl))
      with (dbs := skipn 80 no_files_region).
    + discriminate.
    + reflexivity.
    + vm_compute. reflexivity.
    + vm_compute. reflexivity.
Defined.

(** ** Payload reads *)

(** C5. For a context that holds its section reader and a file entry of
    declared size [S]: a request with [local_offset + length <= S] delegates
    exactly one verified read, of [length] bytes at
    [region_offset + body_offset + entry.offset + local_offset]; it returns
    the bytes the reader supplies there, and whatever it returns as a
    success has exactly [length] bytes and is what the reader supplies
    there. A request with [local_offset + length > S] fails with a range
    error and has no effect: no read is delegated. *)
Theorem payload_read_range_contract (c : Ctx.t) (r : NcaFsSectionContext.t)
    (fe : FileEntry.t) (local_offset len : Z) (m : machine) :
  Ctx.nca_fs_ctx c = Some r ->
  (local_offset + len <= FileEntry.size fe ->
   (forall bs,
      NcaFsSectionContext.read_verified r
        (Ctx.offset c + Ctx.body_offset c + FileEntry.offset fe + local_offset)
        len (context_engine c) = Some bs ->
      Z.of_nat (length bs) = len ->
      romfsReadFileEntryData c fe len local_offset m
      = Some (Ok bs,
              Machine (mem m)
                (trace m ++
                 [EvReadVerified
                    (Ctx.offset c + Ctx.body_offset c + FileEntry.offset fe + local_offset)
                    len (context_engine c)]))) /\
   (forall bs m',
      romfsReadFileEntryData c fe len local_offset m = Some (Ok bs, m') ->
      Z.of_nat (length bs) = len /\
      NcaFsSectionContext.read_verified r
        (Ctx.offset c + Ctx.body_offset c + FileEntry.offset fe + local_offset)
        len (context_engine c) = Some bs /\
      m' = Machine (mem m)
             (trace m ++
              [EvReadVerified
                 (Ctx.offset c + Ctx.body_offset c + FileEntry.offset fe + local_offset)
                 len (context_engine c)]))) /\
  (local_offset + len > FileEntry.size fe ->
   romfsReadFileEntryData c fe len local_offset m = Some (Err RangeError, m)).
Proof.
  intros Hr. split.
  - intros Hin. unfold romfsReadFileEntryData.
    destruct (Z.ltb_spec (FileEntry.size fe) (local_offset + len)); [lia |].
    rewrite Hr. run_M. split.
    + intros bs Hrd Hlen. rewrite (exactly_intro _ _ _ Hrd Hlen). reflexivity.
    + intros bs m'.
      destruct (exactly len _) as [bs'|] eqn:Hex; [| discriminate].
      intros E. injection E as <- <-.
      apply exactly_length in Hex. tauto.
  - intros Hout. unfold romfsReadFileEntryData.
    destruct (Z.ltb_spec (FileEntry.size fe) (local_offset + len)); [| lia].
    reflexivity.
Qed.

Lemma payload_read_range_contract_witness :
  romfsReadFileEntryData example_context
    (FileEntry.mk 0 ROMFS_VOID_ENTRY 5 7 ROMFS_VOID_ENTRY 1) 4 2 (Machine example_heap [])
  = Some (Ok [x6d; x46; x53; x21],
          Machine example_heap
            [EvReadVerified (16 + 0xF0 + 5 + 2) 4 (HierarchicalIntegrity (Ptr 101 0))]) /\
  romfsReadFileEntryData example_context
    (FileEntry.mk 0 ROMFS_VOID_ENTRY 5 7 ROMFS_VOID_ENTRY 1) 4 4 (Machine example_heap [])
  = Some (Err RangeError, Machine example_heap []).
Proof.
  pose proof (payload_read_range_contract example_context example_section
                (FileEntry.mk 0 ROMFS_VOID_ENTRY 5 7 ROMFS_VOID_ENTRY 1)) as H.
  split.
  - destruct (H 2 4 (Machine example_heap []) eq_refl) as [Hin _].
    apply Hin; [simpl; lia | vm_compute; reflexivity | reflexivity].
  - destruct (H 4 4 (Machine example_heap []) eq_refl) as [_ Hout].
    apply Hout. simpl. lia.
Defined.

(** ** Size accounting *)

Section Traversal.

Variables (h : heap) (c : Ctx.t).


(** *** The traversal computes the size of the tree *)

Lemma file_chain_repr_size cur l e :
  file_chain_repr h c cur l e ->
  forall fuel acc,
    (length l < fuel)%nat ->
    file_chain_size fuel h c cur acc
    = Some (match e with
            | EndVoid => Ok (chain_total h c l acc)
            | EndBroken _ => Err TraversalError
            end).
Proof.
  induction 1 as [|cur Hne Hres|cur fe l e Hne Hres Hrep IH]; intros fuel acc Hfuel.
  - destruct fuel as [|f]; [cbn in Hfuel; lia |]. reflexivity.
  - destruct fuel as [|f]; [cbn in Hfuel; lia |]. cbn [file_chain_size].
    destruct (Z.eqb_spec cur ROMFS_VOID_ENTRY); [contradiction |].
    rewrite Hres. reflexivity.
  - destruct fuel as [|f]; [cbn in Hfuel; lia |]. cbn [file_chain_size].
    destruct (Z.eqb_spec cur ROMFS_VOID_ENTRY); [contradiction |].
    rewrite Hres, IH by (cbn in Hfuel; lia).
    destruct e; [| reflexivity].
    cbn [chain_total fold_left]. unfold declared_size at 2.
    rewrite Hres. reflexivity.
Qed.

Lemma traversal_computes_tree_size :
  (forall d t, dir_repr h c d t ->
     exists fuel0, forall fuel, (fuel0 <= fuel)%nat ->
       romfsGetDirectoryDataSize fuel h c d = Some (tree_size h c t)) /\
  (forall cur ts, forest_repr h c cur ts ->
     exists fuel0, forall fuel, (fuel0 <= fuel)%nat -> forall acc,
       child_chain_size fuel h c cur acc = Some (forest_size h c ts acc)).
Proof.
  apply dir_forest_repr_ind.
  - intros d Hres. exists 1%nat. intros [|f] Hf; [lia |].
    cbn [romfsGetDirectoryDataSize tree_size]. rewrite Hres. reflexivity.
  - intros d de files fend children Hres Hfiles _ [fc IHc].
    exists (S (Nat.max (S (length files)) fc)). intros [|f] Hf; [lia |].
    cbn [romfsGetDirectoryDataSize]. rewrite Hres.
    rewrite (file_chain_repr_size _ _ _ Hfiles) by lia.
    destruct fend; cbn [tree_size]; [| reflexivity].
    apply IHc. lia.
  - exists 1%nat. intros [|f] Hf acc; [lia |]. reflexivity.
  - intros cur Hne Hres. exists 1%nat. intros [|f] Hf acc; [lia |].
    cbn [child_chain_size forest_size tree_size].
    destruct (Z.eqb_spec cur ROMFS_VOID_ENTRY); [contradiction |].
    rewrite Hres. reflexivity.
  - intros cur ce t rest Hne Hres _ [ft IHt] _ [fr IHr].
    exists (S (Nat.max ft fr)). intros [|f] Hf acc; [lia |].
    cbn [child_chain_size forest_size].
    destruct (Z.eqb_spec cur ROMFS_VOID_ENTRY); [contradiction |].
    rewrite Hres, IHt by lia.
    destruct (tree_size h c t); [| reflexivity].
    apply IHr. lia.
Qed.

Lemma add64_mod_l (a b : Z) : add64 (a mod u64_max) b = add64 a b.
Proof. unfold add64. apply Zplus_mod_idemp_l. Qed.




Lemma tree_size_error :
  (forall t e, tree_size h c t = Err e -> e = TraversalError) /\
  (forall ts acc e, forest_size h c ts acc = Err e -> e = TraversalError).
Proof.
  apply dir_tree_forest_ind.
  - cbn. congruence.
  - intros o files fend children IH e. cbn.
    destruct fend; [apply IH | congruence].
  - cbn. congruence.
  - intros t IHt rest IHr acc e. cbn.
    destruct (tree_size h c t) as [sub|e'] eqn:Et.
    + apply IHr.
    + intros E. injection E as <-. apply (IHt _ eq_refl).
Qed.

End Traversal.

(** *** The entry graph and its tree *)

Section EntryGraph.

Variables (h : heap) (c : Ctx.t).



Lemma file_chain_repr_on_chain cur l e :
  file_chain_repr h c cur l e ->
  forall f, In f l ->
    file_on_chain h c cur f /\ exists fe, resolve_file h c f = Some fe.
Proof.
  induction 1 as [|cur Hne Hres|cur fe l e Hne Hres Hrep IH]; intros f Hin.
  - destruct Hin.
  - destruct Hin.
  - destruct Hin as [<-|Hin].
    + split; [apply foc_here; exact Hne | exists fe; exact Hres].
    + destruct (IH f Hin) as [Hoc Hrf]. split; [| exact Hrf].
      exact (foc_next h c cur fe f Hne Hres Hoc).
Qed.

Lemma file_on_chain_repr cur f :
  file_on_chain h c cur f ->
  forall l e, file_chain_repr h c cur l e -> In f l \/ e = EndBroken f.
Proof.
  induction 1 as [cur Hne|cur fe f Hne Hres Hoc IH]; intros l e Hrep.
  - inversion Hrep; subst.
    + contradiction.
    + right. reflexivity.
    + left. left. reflexivity.
  - inversion Hrep as [|cur' Hne' Hnone|cur' fe' l' e' Hne' Hres' Hrep']; subst.
    + contradiction.
    + congruence.
    + assert (fe' = fe) by congruence. subst fe'.
      destruct (IH l' e Hrep') as [Hin|He]; [left; right; exact Hin | right; exact He].
Qed.


Lemma dir_on_chain_forest cur d :
  dir_on_chain h c cur d ->
  forall ts, forest_repr h c cur ts ->
    exists t, dir_repr h c d t /\
              tree_files t `sublist_of` forest_files ts /\
              (intact_forest ts = true -> intact t = true).
Proof.
  induction 1 as [cur Hne|cur ce d Hne Hres Hchain IH]; intros ts Hrep.
  - inversion Hrep as [|cur' Hne' Hnone|cur' ce' t rest Hne' Hres' Ht Hrest]; subst.
    + contradiction.
    + exists (Broken cur). split; [apply dr_broken; exact Hnone |].
      split; [apply sublist_nil_l | discriminate].
    + exists t. split; [exact Ht |]. cbn [forest_files intact_forest]. split.
      * apply sublist_inserts_r. reflexivity.
      * intros Hin. apply andb_prop in Hin. tauto.
  - inversion Hrep as [|cur' Hne' Hnone|cur' ce' t rest Hne' Hres' Ht Hrest]; subst.
    + contradiction.
    + congruence.
    + assert (ce' = ce) by congruence. subst ce'.
      destruct (IH rest Hrest) as (t' & Hrep' & Hsub & Hint).
      exists t'. split; [exact Hrep' |]. cbn [forest_files intact_forest]. split.
      * apply sublist_inserts_l. exact Hsub.
      * intros Hin. apply andb_prop in Hin. tauto.
Qed.

(** A directory reachable from the root of a tree is the root of one of
    its subtrees. *)
Lemma reachable_dir_subtree root d :
  reachable_dir h c root d ->
  forall t, dir_repr h c root t ->
    exists t', dir_repr h c d t' /\
               tree_files t' `sublist_of` tree_files t /\
               (intact t = true -> intact t' = true).
Proof.
  induction 1 as [|d1 de1 d' _ IH Hres Hchain]; intros t Hrep.
  - exists t. split; [exact Hrep |]. split; [reflexivity | tauto].
  - destruct (IH t Hrep) as (t1 & Hrep1 & Hsub1 & Hint1).
    inversion Hrep1 as [d0 Hnone|d0 de0 files fend children Hres0 Hfiles Hforest]; subst.
    + congruence.
    + assert (de0 = de1) by congruence. subst de0.
      destruct (dir_on_chain_forest _ _ Hchain children Hforest)
        as (t' & Hrep' & Hsub' & Hint').
      exists t'. split; [exact Hrep' |]. split.
      * etransitivity; [| exact Hsub1]. cbn [tree_files].
        apply sublist_inserts_l. exact Hsub'.
      * intros Hin. specialize (Hint1 Hin). cbn [intact] in Hint1.
        destruct fend; [apply Hint'; exact Hint1 | discriminate].
Qed.

(** In an intact tree every reachable offset resolves, and the reachable
    files are the files of the tree. *)
Lemma intact_reachable_dir_resolves root t d :
  dir_repr h c root t -> intact t = true ->
  reachable_dir h c root d ->
  exists de, resolve_dir h c d = Some de.
Proof.
  intros Hrep Hint Hreach.
  destruct (reachable_dir_subtree _ _ Hreach t Hrep) as (t' & Hrep' & _ & Hint').
  specialize (Hint' Hint).
  inversion Hrep' as [d0 Hnone|d0 de0 files fend children Hres0 Hfiles Hforest]; subst.
  - discriminate.
  - exists de0. exact Hres0.
Qed.

Lemma intact_reachable_file root t f :
  dir_repr h c root t -> intact t = true ->
  reachable_file h c root f ->
  In f (tree_files t) /\ exists fe, resolve_file h c f = Some fe.
Proof.
  intros Hrep Hint (d & de & Hreach & Hres & Hchain).
  destruct (reachable_dir_subtree _ _ Hreach t Hrep) as (t' & Hrep' & Hsub & Hint').
  specialize (Hint' Hint).
  inversion Hrep' as [d0 Hnone|d0 de0 files fend children Hres0 Hfiles Hforest]; subst.
  - discriminate.
  - assert (de0 = de) by congruence. subst de0.
    cbn [intact] in Hint'. destruct fend; [| discriminate].
    destruct (file_on_chain_repr _ _ Hchain _ _ Hfiles) as [Hin|He]; [| discriminate].
    split.
    + apply list_elem_of_In. eapply elem_of_sublist; [| exact Hsub].
      apply list_elem_of_In. cbn [tree_files]. apply in_or_app. left. exact Hin.
    + apply (file_chain_repr_on_chain _ _ _ Hfiles f Hin).
Qed.

End EntryGraph.

(** *** A successful run walks an intact tree *)

Section Runs.

Variables (h : heap) (c : Ctx.t).

Lemma file_chain_size_ok fuel :
  forall cur acc n,
    file_chain_size fuel h c cur acc = Some (Ok n) ->
    exists l, file_chain_repr h c cur l EndVoid.
Proof.
  induction fuel as [|f IH]; intros cur acc n Hrun; [discriminate |].
  cbn [file_chain_size] in Hrun.
  destruct (Z.eqb_spec cur ROMFS_VOID_ENTRY) as [->|Hne].
  - exists []. apply fcr_void.
  - destruct (resolve_file h c cur) as [fe|] eqn:Hres; [| discriminate].
    destruct (IH _ _ _ Hrun) as [l Hl].
    exists (cur :: l). exact (fcr_cons h c cur fe l EndVoid Hne Hres Hl).
Qed.

Lemma run_ok_intact fuel :
  (forall d n,
     romfsGetDirectoryDataSize fuel h c d = Some (Ok n) ->
     exists t, dir_repr h c d t /\ intact t = true) /\
  (forall cur acc n,
     child_chain_size fuel h c cur acc = Some (Ok n) ->
     exists ts, forest_repr h c cur ts /\ intact_forest ts = true).
Proof.
  induction fuel as [|f [IHd IHc]]; [split; discriminate |].
  split.
  - intros d n Hrun. cbn [romfsGetDirectoryDataSize] in Hrun.
    destruct (resolve_dir h c d) as [de|] eqn:Hres; [| discriminate].
    destruct (file_chain_size f h c (DirEntry.file_offset de) 0)
      as [[files|e]|] eqn:Hfiles; [| discriminate | discriminate].
    destruct (file_chain_size_ok _ _ _ _ Hfiles) as [l Hl].
    destruct (IHc _ _ _ Hrun) as (ts & Hts & Hint).
    exists (Node d l EndVoid ts). split; [| exact Hint].
    exact (dr_node h c d de l EndVoid ts Hres Hl Hts).
  - intros cur acc n Hrun. cbn [child_chain_size] in Hrun.
    destruct (Z.eqb_spec cur ROMFS_VOID_ENTRY) as [->|Hne].
    + exists FEnd. split; [apply fr_void | reflexivity].
    + destruct (resolve_dir h c cur) as [ce|] eqn:Hres; [| discriminate].
      destruct (romfsGetDirectoryDataSize f h c cur) as [[sub|e]|] eqn:Hsub;
        [| discriminate | discriminate].
      destruct (IHd _ _ Hsub) as (t & Ht & Hit).
      destruct (IHc _ _ _ Hrun) as (rest & Hrest & Hir).
      exists (FCons t rest). split.
      * exact (fr_cons h c cur ce t rest Hne Hres Ht Hrest).
      * cbn [intact_forest]. rewrite Hit, Hir. reflexivity.
Qed.

Lemma file_chain_size_error fuel :
  forall cur acc e,
    file_chain_size fuel h c cur acc = Some (Err e) -> e = TraversalError.
Proof.
  induction fuel as [|f IH]; intros cur acc e Hrun; [discriminate |].
  cbn [file_chain_size] in Hrun.
  destruct (cur =? ROMFS_VOID_ENTRY); [discriminate |].
  destruct (resolve_file h c cur) as [fe|]; [exact (IH _ _ _ Hrun) | congruence].
Qed.

Lemma run_error fuel :
  (forall d e,
     romfsGetDirectoryDataSize fuel h c d = Some (Err e) -> e = TraversalError) /\
  (forall cur acc e,
     child_chain_size fuel h c cur acc = Some (Err e) -> e = TraversalError).
Proof.
  induction fuel as [|f [IHd IHc]]; [split; discriminate |].
  split.
  - intros d e Hrun. cbn [romfsGetDirectoryDataSize] in Hrun.
    destruct (resolve_dir h c d) as [de|]; [| congruence].
    destruct (file_chain_size f h c (DirEntry.file_offset de) 0)
      as [[files|e']|] eqn:Hfiles; [| | discriminate].
    + exact (IHc _ _ _ Hrun).
    + apply file_chain_size_error in Hfiles. congruence.
  - intros cur acc e Hrun. cbn [child_chain_size] in Hrun.
    destruct (cur =? ROMFS_VOID_ENTRY); [discriminate |].
    destruct (resolve_dir h c cur) as [ce|]; [| congruence].
    destruct (romfsGetDirectoryDataSize f h c cur) as [[sub|e']|] eqn:Hsub;
      [| | discriminate].
    + exact (IHc _ _ _ Hrun).
    + apply IHd in Hsub. congruence.
Qed.

(** A run that ends with a sum has resolved every offset reachable from
    its starting directory. *)
Lemma run_ok_resolves_all fuel d n :
  romfsGetDirectoryDataSize fuel h c d = Some (Ok n) ->
  ~ unresolved_reachable h c d.
Proof.
  intros Hrun. destruct (proj1 (run_ok_intact fuel) _ _ Hrun) as (t & Hrep & Hint).
  intros [(d' & Hreach & Hnone)|(f & Hreach & Hnone)].
  - destruct (intact_reachable_dir_resolves h c d t d' Hrep Hint Hreach) as [de Hde].
    congruence.
  - destruct (intact_reachable_file h c d t f Hrep Hint Hreach) as [_ [fe Hfe]].
    congruence.
Qed.

Lemma run_aborts fuel d r :
  unresolved_reachable h c d ->
  romfsGetDirectoryDataSize fuel h c d = Some r ->
  r = Err TraversalError.
Proof.
  intros Hur Hrun. destruct r as [n|e].
  - destruct (run_ok_resolves_all _ _ _ Hrun Hur).
  - f_equal. exact (proj1 (run_error fuel) _ _ Hrun).
Qed.

End Runs.

(** *** The example archives *)

Ltac known_offset := vm_compute; congruence.




Lemma cut_archive_repr : dir_repr cut_heap cut_context 0 cut_tree.
Proof.
  apply (dr_node _ _ 0
           (DirEntry.mk ROMFS_VOID_ENTRY ROMFS_VOID_ENTRY 24 0 ROMFS_VOID_ENTRY 0));
    [vm_compute; reflexivity | |].
  - apply (fcr_cons _ _ 0 (FileEntry.mk 0 36 0 5 ROMFS_VOID_ENTRY 1));
      [known_offset | vm_compute; reflexivity |].
    apply (fcr_cons _ _ 36 (FileEntry.mk 0 ROMFS_VOID_ENTRY 5 7 ROMFS_VOID_ENTRY 1));
      [known_offset | vm_compute; reflexivity |].
    apply fcr_void.
  - apply (fr_cons _ _ 24
             (DirEntry.mk 0 ROMFS_VOID_ENTRY ROMFS_VOID_ENTRY 72 ROMFS_VOID_ENTRY 1));
      [known_offset | vm_compute; reflexivity | | apply fr_void].
    apply (dr_node _ _ 24
             (DirEntry.mk 0 ROMFS_VOID_ENTRY ROMFS_VOID_ENTRY 72 ROMFS_VOID_ENTRY 1));
      [vm_compute; reflexivity | | apply fr_void].
    apply fcr_broken; [known_offset | vm_compute; reflexivity].
Qed.

Lemma cut_archive_unresolved : unresolved_reachable cut_heap cut_context 0.
Proof.
  right. exists 72. split; [| vm_compute; reflexivity].
  exists 24, (DirEntry.mk 0 ROMFS_VOID_ENTRY ROMFS_VOID_ENTRY 72 ROMFS_VOID_ENTRY 1).
  split; [| split; [vm_compute; reflexivity | apply foc_here; known_offset]].
  apply (rd_child _ _ 0 0
           (DirEntry.mk ROMFS_VOID_ENTRY ROMFS_VOID_ENTRY 24 0 ROMFS_VOID_ENTRY 0) 24);
    [apply rd_root | vm_compute; reflexivity |].
  apply doc_here. known_offset.
Qed.

(** *** Exact sums and aborted runs *)











(** C8. When some offset reachable from the starting directory does not
    resolve, the size computation never ends with a sum: whatever it
    returns, from a directory or for the whole archive, is the traversal
    error, which carries no number; and on an acyclic archive it does
    return it, for every sufficient amount of fuel. *)
Theorem size_accounting_aborts (h : heap) (c : Ctx.t) (d : Z) :
  unresolved_reachable h c d ->
  (forall fuel r,
     romfsGetDirectoryDataSize fuel h c d = Some r -> r = Err TraversalError) /\
  (d = 0 ->
   forall fuel r, romfsGetTotalDataSize fuel h c = Some r -> r = Err TraversalError) /\
  (acyclic h c d ->
   exists fuel0, forall fuel, (fuel0 <= fuel)%nat ->
     romfsGetDirectoryDataSize fuel h c d = Some (Err TraversalError)).
Proof.
  intros Hur. split; [| split].
  - intros fuel r. apply run_aborts. exact Hur.
  - intros -> fuel r. unfold romfsGetTotalDataSize. apply run_aborts. exact Hur.
  - intros [t Hrep].
    destruct (proj1 (traversal_computes_tree_size h c) d t Hrep) as [fuel0 Hrun].
    exists fuel0. intros fuel Hfuel. specialize (Hrun fuel Hfuel).
    rewrite Hrun. f_equal. exact (run_aborts h c fuel d _ Hur Hrun).
Qed.

Lemma size_accounting_aborts_witness :
  (forall fuel r,
     romfsGetTotalDataSize fuel cut_heap cut_context = Some r ->
     r = Err TraversalError) /\
  exists fuel0, forall fuel, (fuel0 <= fuel)%nat ->
    romfsGetDirectoryDataSize fuel cut_heap cut_context 0 = Some (Err TraversalError).
Proof.
  destruct (size_accounting_aborts cut_heap cut_context 0 cut_archive_unresolved)
    as (_ & Ht & Hl).
  split.
  - exact (Ht eq_refl).
  - apply Hl. exists cut_tree. apply cut_archive_repr.
Defined.

(** ** Further properties of the inline functions *)

(** *** Release and the heap *)

Lemma guarded_free_step (p : ptr) (m m' : machine) (u : unit) :
  (if is_null p then mret tt else free p) m = Some (u, m') ->
  (p = Null /\ m' = m) \/
  (exists b, p = Ptr b 0 /\ is_Some (mem m !! b) /\
             m' = Machine (delete b (mem m)) (trace m ++ [EvFree p])).
Proof.
  destruct p as [|b ofs]; cbn.
  - intros E. injection E as _ <-. left. auto.
  - destruct (mem m !! b) as [bs|] eqn:Hb; [| discriminate].
    destruct (Z.eqb_spec ofs 0) as [->|]; [| discriminate].
    intros E. injection E as _ <-. right. exists b.
    rewrite Hb. split; [reflexivity | split; [eexists; reflexivity | reflexivity]].
Qed.

Lemma romfsFreeContext_steps (c : Ctx.t) (m m1 : machine) (r : option Ctx.t) :
  romfsFreeContext (Some c) m = Some (r, m1) ->
  exists m',
    (if is_null (Ctx.dir_table c) then mret tt else free (Ctx.dir_table c)) m
    = Some (tt, m') /\
    (if is_null (Ctx.file_table c) then mret tt else free (Ctx.file_table c)) m'
    = Some (tt, m1) /\
    r = Some Ctx.zero.
Proof.
  unfold romfsFreeContext, mbind, M_bind.
  destruct ((if is_null (Ctx.dir_table c) then mret tt
             else free (Ctx.dir_table c)) m) as [[[] m']|]; [| discriminate].
  destruct ((if is_null (Ctx.file_table c) then mret tt
             else free (Ctx.file_table c)) m') as [[[] m'']|] eqn:Hf;
    [| discriminate].
  intros E. injection E as <- <-. exists m'. auto.
Qed.

(** What a release does to the heap: the buffers of the two tables are
    gone, every other buffer is as it was. *)
Lemma release_heap (c : Ctx.t) (m m1 : machine) (r : option Ctx.t) :
  romfsFreeContext (Some c) m = Some (r, m1) ->
  (forall b ofs, Ctx.dir_table c = Ptr b ofs -> mem m1 !! b = None) /\
  (forall b ofs, Ctx.file_table c = Ptr b ofs -> mem m1 !! b = None) /\
  (forall b, Ctx.dir_table c <> Ptr b 0 -> Ctx.file_table c <> Ptr b 0 ->
             mem m1 !! b = mem m !! b).
Proof.
  intros Hrun. destruct (romfsFreeContext_steps _ _ _ _ Hrun) as (m' & Hd & Hf & _).
  apply guarded_free_step in Hd. apply guarded_free_step in Hf.
  destruct Hd as [[Ed ->]|(bd & Ed & Hld & ->)];
    destruct Hf as [[Ef ->]|(bf & Ef & Hlf & ->)]; cbn [mem] in *;
    rewrite Ed, Ef; repeat split; intros; try discriminate;
    repeat match goal with
           | H : Ptr _ _ = Ptr _ _ |- _ => injection H as <- <-
           end.
  - apply lookup_delete_eq.
  - apply lookup_delete_ne. congruence.
  - apply lookup_delete_eq.
  - apply lookup_delete_ne. congruence.
  - destruct (decide (bf = bd)) as [->|Hne];
      [apply lookup_delete_eq | rewrite lookup_delete_ne by exact Hne; apply lookup_delete_eq].
  - apply lookup_delete_eq.
  - rewrite !lookup_delete_ne by congruence. reflexivity.
Qed.

(** X1. Releasing a context whose two tables are distinct live buffers is
    defined: the structure is zeroed, exactly the two frees are performed,
    the directory table first, both buffers are gone from the heap and
    every other buffer is left as it was. *)
Theorem release_frees_exactly_the_tables (c : Ctx.t) (m : machine)
    (bd bf : positive) :
  Ctx.dir_table c = Ptr bd 0 ->
  Ctx.file_table c = Ptr bf 0 ->
  bd <> bf ->
  is_Some (mem m !! bd) ->
  is_Some (mem m !! bf) ->
  exists m1,
    romfsFreeContext (Some c) m = Some (Some Ctx.zero, m1) /\
    trace m1 = trace m ++ [EvFree (Ptr bd 0); EvFree (Ptr bf 0)] /\
    mem m1 !! bd = None /\
    mem m1 !! bf = None /\
    (forall b, b <> bd -> b <> bf -> mem m1 !! b = mem m !! b).
Proof.
  intros Ed Ef Hne [dbs Hd] [fbs Hf].
  assert (Hrun : romfsFreeContext (Some c) m
                 = Some (Some Ctx.zero,
                         Machine (delete bf (delete bd (mem m)))
                           (trace m ++ [EvFree (Ptr bd 0); EvFree (Ptr bf 0)]))).
  { unfold romfsFreeContext, mbind, M_bind, mret, M_ret, free.
    rewrite Ed, Ef. cbn. rewrite Hd. cbn.
    rewrite lookup_delete_ne by exact Hne. rewrite Hf.
    rewrite <- app_assoc. reflexivity. }
  eexists. split; [exact Hrun |]. cbn [mem trace].
  split; [reflexivity |].
  destruct (release_heap _ _ _ _ Hrun) as (Gd & Gf & Fr). cbn [mem] in *.
  split; [exact (Gd bd 0 Ed) |]. split; [exact (Gf bf 0 Ef) |].
  intros b Hbd Hbf. apply Fr; rewrite ?Ed, ?Ef; congruence.
Qed.

Lemma release_frees_exactly_the_tables_witness :
  exists m1,
    romfsFreeContext (Some example_context) (Machine shared_heap [])
    = Some (Some Ctx.zero, m1) /\
    trace m1 = [EvFree (Ptr 1 0); EvFree (Ptr 2 0)] /\
    mem m1 !! 1%positive = None /\
    mem m1 !! 2%positive = None /\
    (forall b, b <> 1%positive -> b <> 2%positive -> mem m1 !! b = shared_heap !! b).
Proof.
  apply (release_frees_exactly_the_tables example_context
           (Machine shared_heap []) 1 2);
    [reflexivity | reflexivity | discriminate
    | vm_compute; eexists; reflexivity | vm_compute; eexists; reflexivity].
Defined.

(** X2. [romfsFreeContext] on a non-null context is defined exactly when
    each table pointer is null or the base of a live buffer, and the two
    are not the same buffer; in particular, two table pointers that alias
    one buffer make the second [free] a double free. *)
Theorem release_defined_iff (c : Ctx.t) (m : machine) :
  is_Some (romfsFreeContext (Some c) m) <->
  releasable (mem m) (Ctx.dir_table c) /\
  releasable (mem m) (Ctx.file_table c) /\
  (Ctx.dir_table c <> Null -> Ctx.dir_table c <> Ctx.file_table c).
Proof.
  split.
  - intros [[r m1] Hrun].
    destruct (romfsFreeContext_steps _ _ _ _ Hrun) as (m' & Hd & Hf & _).
    apply guarded_free_step in Hd. apply guarded_free_step in Hf.
    destruct Hd as [[Ed ->]|(bd & Ed & Hld & ->)].
    + split; [left; exact Ed |]. split; [| congruence].
      destruct Hf as [[Ef _]|(bf & Ef & Hlf & _)]; [left; exact Ef |].
      right. exists bf. auto.
    + split; [right; exists bd; auto |].
      destruct Hf as [[Ef _]|(bf & Ef & Hlf & _)].
      * split; [left; exact Ef | congruence].
      * cbn [mem] in Hlf.
        assert (Hne : bf <> bd).
        { intros ->. rewrite lookup_delete_eq in Hlf. destruct Hlf; discriminate. }
        rewrite lookup_delete_ne in Hlf by congruence.
        split; [right; exists bf; auto | congruence].
  - intros (Hd & Hf & Hne).
    unfold romfsFreeContext, mbind, M_bind, mret, M_ret, free.
    destruct Hd as [Ed|(bd & Ed & [dbs Hld])]; rewrite Ed in *; cbn.
    + destruct Hf as [Ef|(bf & Ef & [fbs Hlf])]; rewrite Ef; cbn;
        [eexists; reflexivity |].
      rewrite Hlf. cbn. eexists; reflexivity.
    + rewrite Hld. cbn.
      destruct Hf as [Ef|(bf & Ef & [fbs Hlf])]; rewrite Ef in *; cbn;
        [eexists; reflexivity |].
      rewrite lookup_delete_ne by (specialize (Hne ltac:(discriminate)); congruence).
      rewrite Hlf. cbn. eexists; reflexivity.
Qed.

Lemma release_defined_iff_witness :
  is_Some (romfsFreeContext (Some example_context) (Machine example_heap [])) /\
  ~ is_Some (romfsFreeContext (Some aliased_context) (Machine example_heap [])).
Proof.
  split.
  - apply (proj2 (release_defined_iff example_context (Machine example_heap []))).
    split; [right; exists 1%positive; split;
              [reflexivity | vm_compute; eexists; reflexivity] |].
    split; [right; exists 2%positive; split;
              [reflexivity | vm_compute; eexists; reflexivity] |].
    intros _. discriminate.
  - intros H.
    apply (proj1 (release_defined_iff aliased_context (Machine example_heap []))) in H.
    destruct H as (_ & _ & Hne). apply Hne; [discriminate | reflexivity].
Defined.

(** X3. After a release, both resolvers answer [NULL] at every offset of
    the released structure: nothing can be resolved through a context once
    its tables are freed. *)
Theorem released_context_resolves_nothing (c : Ctx.t) (m m1 : machine)
    (ctx1 : option Ctx.t) :
  romfsFreeContext (Some c) m = Some (ctx1, m1) ->
  forall o,
    romfsGetDirectoryEntry ctx1 o = Null /\ romfsGetFileEntry ctx1 o = Null.
Proof.
  intros Hrun o. apply romfsFreeContext_result in Hrun as ->.
  split; reflexivity.
Qed.

Lemma released_context_resolves_nothing_witness :
  romfsGetDirectoryEntry (Some Ctx.zero) 0 = Null /\
  romfsGetFileEntry (Some Ctx.zero) 0 = Null.
Proof.
  apply (released_context_resolves_nothing example_context
           (Machine example_heap [])
           (Machine ∅ [EvFree (Ptr 1 0); EvFree (Ptr 2 0)]) (Some Ctx.zero)).
  vm_compute. reflexivity.
Defined.

(** X4. Views do not outlive the context: a pointer either resolver
    answered before the release cannot be read once
    [romfsFreeContext] has returned, whatever the length of the read. *)
Theorem views_do_not_outlive_release (c : Ctx.t) (m m1 : machine)
    (ctx1 : option Ctx.t) (o n : Z) :
  romfsFreeContext (Some c) m = Some (ctx1, m1) ->
  (romfsGetDirectoryEntry (Some c) o <> Null ->
   load (mem m1) (romfsGetDirectoryEntry (Some c) o) n = None) /\
  (romfsGetFileEntry (Some c) o <> Null ->
   load (mem m1) (romfsGetFileEntry (Some c) o) n = None).
Proof.
  intros Hrun. destruct (release_heap _ _ _ _ Hrun) as (Gd & Gf & _).
  split; intros Hnn.
  - unfold romfsGetDirectoryEntry in *.
    destruct (is_null (Ctx.dir_table c) || _); [congruence |].
    destruct (Ctx.dir_table c) as [|b ofs] eqn:Ed; [cbn in Hnn; congruence |].
    cbn. rewrite (Gd b ofs eq_refl). reflexivity.
  - unfold romfsGetFileEntry in *.
    destruct (is_null (Ctx.file_table c) || _); [congruence |].
    destruct (Ctx.file_table c) as [|b ofs] eqn:Ef; [cbn in Hnn; congruence |].
    cbn. rewrite (Gf b ofs eq_refl). reflexivity.
Qed.

Lemma views_do_not_outlive_release_witness :
  load example_heap (romfsGetDirectoryEntry (Some example_context) 24) 24 <> None /\
  load ∅ (romfsGetDirectoryEntry (Some example_context) 24) 24 = None /\
  load ∅ (romfsGetFileEntry (Some example_context) 36) 32 = None.
Proof.
  destruct (views_do_not_outlive_release example_context
              (Machine example_heap [])
              (Machine ∅ [EvFree (Ptr 1 0); EvFree (Ptr 2 0)]) (Some Ctx.zero)
              24 24) as [Hd _]; [vm_compute; reflexivity |].
  destruct (views_do_not_outlive_release example_context
              (Machine example_heap [])
              (Machine ∅ [EvFree (Ptr 1 0); EvFree (Ptr 2 0)]) (Some Ctx.zero)
              36 32) as [_ Hf]; [vm_compute; reflexivity |].
  split; [vm_compute; discriminate |].
  split; [apply Hd | apply Hf]; vm_compute; discriminate.
Defined.

(** X5. Releasing one context leaves every other context usable: a
    context that was initialized and whose table pointers differ from those
    of the released one is still initialized afterwards. *)
Theorem release_preserves_other_contexts (c c2 : Ctx.t) (m m1 : machine)
    (ctx1 : option Ctx.t) :
  romfsFreeContext (Some c) m = Some (ctx1, m1) ->
  initialized (mem m) c2 ->
  Ctx.dir_table c2 <> Ctx.dir_table c ->
  Ctx.dir_table c2 <> Ctx.file_table c ->
  Ctx.file_table c2 <> Ctx.dir_table c ->
  Ctx.file_table c2 <> Ctx.file_table c ->
  initialized (mem m1) c2.
Proof.
  intros Hrun [(bd & dbs & Ed & Hd & Ld) (bf & fbs & Ef & Hf & Lf)] N1 N2 N3 N4.
  destruct (release_heap _ _ _ _ Hrun) as (_ & _ & Fr).
  split.
  - exists bd, dbs. split; [exact Ed |]. split; [| exact Ld].
    rewrite Fr; [exact Hd | congruence | congruence].
  - exists bf, fbs. split; [exact Ef |]. split; [| exact Lf].
    rewrite Fr; [exact Hf | congruence | congruence].
Qed.

Lemma shared_heap_other_initialized : initialized shared_heap other_context.
Proof.
  split.
  - exists 3%positive, lone_root_table. repeat split; vm_compute; reflexivity.
  - exists 4%positive, []. repeat split; vm_compute; reflexivity.
Qed.

Lemma release_preserves_other_contexts_witness :
  exists m1,
    romfsFreeContext (Some example_context) (Machine shared_heap [])
    = Some (Some Ctx.zero, m1) /\
    initialized (mem m1) other_context.
Proof.
  eexists. split; [vm_compute; reflexivity |].
  apply (release_preserves_other_contexts example_context other_context
           (Machine shared_heap []) _ (Some Ctx.zero));
    [vm_compute; reflexivity | apply shared_heap_other_initialized
    | discriminate | discriminate | discriminate | discriminate].
Defined.

(** *** Views and the table buffers *)

Lemma le_decode_range (l : list byte) :
  0 <= le_decode l < 256 ^ Z.of_nat (length l).
Proof.
  induction l as [|b l IH]; [cbn; lia |].
  cbn [le_decode length]. rewrite Nat2Z.inj_succ, Z.pow_succ_r by lia.
  pose proof (byte_val_range b). nia.
Qed.

Lemma slice_length_le (bs : list byte) (o : Z) (n : nat) :
  (length (slice bs o n) <= n)%nat.
Proof. unfold slice. rewrite length_firstn. lia. Qed.

Lemma field_u32_range (bs : list byte) (o : Z) : is_u32 (field_u32 bs o).
Proof.
  unfold is_u32, field_u32, u32_max.
  pose proof (le_decode_range (slice bs o 4)) as Hr.
  pose proof (slice_length_le bs o 4) as Hl.
  assert (256 ^ Z.of_nat (length (slice bs o 4)) <= 256 ^ 4)
    by (apply Z.pow_le_mono_r; lia).
  lia.
Qed.

Lemma field_u64_range (bs : list byte) (o : Z) : is_u64 (field_u64 bs o).
Proof.
  unfold is_u64, field_u64, u64_max.
  pose proof (le_decode_range (slice bs o 8)) as Hr.
  pose proof (slice_length_le bs o 8) as Hl.
  assert (256 ^ Z.of_nat (length (slice bs o 8)) <= 256 ^ 8)
    by (apply Z.pow_le_mono_r; lia).
  lia.
Qed.

Lemma load_in_bounds (h : heap) (b : positive) (bs : list byte) (ofs n : Z) :
  h !! b = Some bs ->
  0 <= ofs -> 0 <= n -> ofs + n <= Z.of_nat (length bs) ->
  exists rec, load h (Ptr b ofs) n = Some rec /\ Z.of_nat (length rec) = n.
Proof.
  intros Hb Ho Hn Hle. unfold load. rewrite Hb.
  replace ((0 <=? ofs) && (0 <=? n) && (ofs + n <=? Z.of_nat (length bs)))
    with true by (symmetry; rewrite !andb_true_iff, !Z.leb_le; lia).
  eexists. split; [reflexivity |].
  unfold slice. rewrite length_firstn, length_skipn. lia.
Qed.

Lemma resolved_view_shape (h : heap) (c : Ctx.t) (o : Z) :
  initialized h c ->
  is_u32 o ->
  (romfsGetDirectoryEntry (Some c) o <> Null ->
   exists b bs,
     Ctx.dir_table c = Ptr b 0 /\
     h !! b = Some bs /\
     romfsGetDirectoryEntry (Some c) o = Ptr b o /\
     o + 24 <= Z.of_nat (length bs)) /\
  (romfsGetFileEntry (Some c) o <> Null ->
   exists b bs,
     Ctx.file_table c = Ptr b 0 /\
     h !! b = Some bs /\
     romfsGetFileEntry (Some c) o = Ptr b o /\
     o + 32 <= Z.of_nat (length bs)).
Proof.
  intros [(bd & dbs & Ed & Hd & Ld) (bf & fbs & Ef & Hf & Lf)] Ho.
  split; intros Hnn.
  - assert (Hl : Ctx.dir_table c <> Null) by (rewrite Ed; discriminate).
    rewrite (romfsGetDirectoryEntry_loaded c o Ho Hl) in *.
    destruct (Z.ltb_spec (Ctx.dir_table_size c) (o + 24)); [congruence |].
    rewrite Ed. cbn [ptr_add]. rewrite Z.add_0_l.
    exists bd, dbs. repeat split; try assumption; lia.
  - assert (Hl : Ctx.file_table c <> Null) by (rewrite Ef; discriminate).
    rewrite (romfsGetFileEntry_loaded c o Ho Hl) in *.
    destruct (Z.ltb_spec (Ctx.file_table_size c) (o + 32)); [congruence |].
    rewrite Ef. cbn [ptr_add]. rewrite Z.add_0_l.
    exists bf, fbs. repeat split; try assumption; lia.
Qed.

(** X6. Memory safety of the resolvers: in an initialized context, a
    non-null answer at a [u32] offset [o] is the pointer [o] bytes into the
    table's buffer, the whole fixed part of the record lies inside that
    buffer, and reading it through the pointer succeeds. *)
Theorem resolved_view_is_readable (h : heap) (c : Ctx.t) (o : Z) :
  initialized h c ->
  is_u32 o ->
  (romfsGetDirectoryEntry (Some c) o <> Null ->
   exists b bs rec,
     h !! b = Some bs /\
     romfsGetDirectoryEntry (Some c) o = Ptr b o /\
     o + 24 <= Z.of_nat (length bs) /\
     load h (romfsGetDirectoryEntry (Some c) o) 24 = Some rec /\
     length rec = 24%nat) /\
  (romfsGetFileEntry (Some c) o <> Null ->
   exists b bs rec,
     h !! b = Some bs /\
     romfsGetFileEntry (Some c) o = Ptr b o /\
     o + 32 <= Z.of_nat (length bs) /\
     load h (romfsGetFileEntry (Some c) o) 32 = Some rec /\
     length rec = 32%nat).
Proof.
  intros [(bd & dbs & Ed & Hd & Ld) (bf & fbs & Ef & Hf & Lf)] Ho.
  split; intros Hnn.
  - assert (Hl : Ctx.dir_table c <> Null) by (rewrite Ed; discriminate).
    rewrite (romfsGetDirectoryEntry_loaded c o Ho Hl) in *.
    destruct (Z.ltb_spec (Ctx.dir_table_size c) (o + 24)); [congruence |].
    rewrite Ed. cbn [ptr_add]. rewrite Z.add_0_l.
    destruct (load_in_bounds h bd dbs o 24 Hd) as (rec & Hrec & Hlen);
      [unfold is_u32 in Ho; lia | lia | lia |].
    exists bd, dbs, rec. repeat split; try assumption; lia.
  - assert (Hl : Ctx.file_table c <> Null) by (rewrite Ef; discriminate).
    rewrite (romfsGetFileEntry_loaded c o Ho Hl) in *.
    destruct (Z.ltb_spec (Ctx.file_table_size c) (o + 32)); [congruence |].
    rewrite Ef. cbn [ptr_add]. rewrite Z.add_0_l.
    destruct (load_in_bounds h bf fbs o 32 Hf) as (rec & Hrec & Hlen);
      [unfold is_u32 in Ho; lia | lia | lia |].
    exists bf, fbs, rec. repeat split; try assumption; lia.
Qed.

Lemma example_heap_initialized : initialized example_heap example_context.
Proof.
  split.
  - exists 1%positive, example_dir_table. repeat split; vm_compute; reflexivity.
  - exists 2%positive, example_file_table. repeat split; vm_compute; reflexivity.
Qed.

Lemma is_u32_literal (z : Z) : (0 <=? z) && (z <? u32_max) = true -> is_u32 z.
Proof.
  rewrite andb_true_iff, Z.leb_le, Z.ltb_lt. unfold is_u32. tauto.
Qed.

Lemma resolved_view_is_readable_witness :
  (exists b bs rec,
     example_heap !! b = Some bs /\
     romfsGetDirectoryEntry (Some example_context) 24 = Ptr b 24 /\
     24 + 24 <= Z.of_nat (length bs) /\
     load example_heap (romfsGetDirectoryEntry (Some example_context) 24) 24
     = Some rec /\
     length rec = 24%nat) /\
  (exists b bs rec,
     example_heap !! b = Some bs /\
     romfsGetFileEntry (Some example_context) 36 = Ptr b 36 /\
     36 + 32 <= Z.of_nat (length bs) /\
     load example_heap (romfsGetFileEntry (Some example_context) 36) 32
     = Some rec /\
     length rec = 32%nat).
Proof.
  split.
  - apply (resolved_view_is_readable example_heap example_context 24
             example_heap_initialized (is_u32_literal 24 eq_refl)).
    vm_compute. discriminate.
  - apply (resolved_view_is_readable example_heap example_context 36
             example_heap_initialized (is_u32_literal 36 eq_refl)).
    vm_compute. discriminate.
Defined.

(** X7. Distinct offsets resolve to distinct views: two [u32] offsets for
    which a resolver gives the same non-null pointer are equal. *)
Theorem resolved_views_are_distinct (c : Ctx.t) (o1 o2 : Z) :
  is_u32 o1 ->
  is_u32 o2 ->
  (romfsGetDirectoryEntry (Some c) o1 <> Null ->
   romfsGetDirectoryEntry (Some c) o1 = romfsGetDirectoryEntry (Some c) o2 ->
   o1 = o2) /\
  (romfsGetFileEntry (Some c) o1 <> Null ->
   romfsGetFileEntry (Some c) o1 = romfsGetFileEntry (Some c) o2 ->
   o1 = o2).
Proof.
  intros H1 H2. split; intros Hnn Heq.
  - assert (Hl : Ctx.dir_table c <> Null).
    { intros E. apply Hnn. unfold romfsGetDirectoryEntry. rewrite E. reflexivity. }
    rewrite Heq in Hnn.
    rewrite !romfsGetDirectoryEntry_loaded in * by assumption.
    destruct (Ctx.dir_table_size c <? o1 + 24); [congruence |].
    destruct (Ctx.dir_table_size c <? o2 + 24); [congruence |].
    destruct (Ctx.dir_table c) as [|b ofs]; [congruence |].
    cbn in Heq. injection Heq as Heq. lia.
  - assert (Hl : Ctx.file_table c <> Null).
    { intros E. apply Hnn. unfold romfsGetFileEntry. rewrite E. reflexivity. }
    rewrite Heq in Hnn.
    rewrite !romfsGetFileEntry_loaded in * by assumption.
    destruct (Ctx.file_table_size c <? o1 + 32); [congruence |].
    destruct (Ctx.file_table_size c <? o2 + 32); [congruence |].
    destruct (Ctx.file_table c) as [|b ofs]; [congruence |].
    cbn in Heq. injection Heq as Heq. lia.
Qed.

Lemma resolved_views_are_distinct_witness :
  romfsGetDirectoryEntry (Some example_context) 0
  <> romfsGetDirectoryEntry (Some example_context) 24 /\
  romfsGetFileEntry (Some example_context) 36
  <> romfsGetFileEntry (Some example_context) 72.
Proof.
  destruct (resolved_views_are_distinct example_context 0 24
              (is_u32_literal 0 eq_refl) (is_u32_literal 24 eq_refl)) as [Hd _].
  destruct (resolved_views_are_distinct example_context 36 72
              (is_u32_literal 36 eq_refl) (is_u32_literal 72 eq_refl)) as [_ Hf].
  split.
  - intros E. specialize (Hd ltac:(vm_compute; discriminate) E). discriminate.
  - intros E. specialize (Hf ltac:(vm_compute; discriminate) E). discriminate.
Defined.

(** X8. A table shorter than one fixed record holds no entry: with a
    directory table size below 24 (resp. a file table size below 32, as in
    an archive without files, whose file table is empty) the resolver
    answers [NULL] at every [u32] offset, offset 0 included. *)
Theorem short_table_resolves_nothing (c : Ctx.t) (o : Z) :
  is_u32 o ->
  (Ctx.dir_table_size c < 24 -> romfsGetDirectoryEntry (Some c) o = Null) /\
  (Ctx.file_table_size c < 32 -> romfsGetFileEntry (Some c) o = Null).
Proof.
  intros Ho. split; intros Hlt.
  - unfold romfsGetDirectoryEntry.
    destruct (is_null (Ctx.dir_table c)); [reflexivity |]. cbn [orb].
    rewrite add64_small; [| exact Ho | unfold DirEntry.sizeof, u32_max; lia].
    unfold DirEntry.sizeof, is_u32 in *.
    destruct (Z.ltb_spec (Ctx.dir_table_size c) (o + 24)); [reflexivity | lia].
  - unfold romfsGetFileEntry.
    destruct (is_null (Ctx.file_table c)); [reflexivity |]. cbn [orb].
    rewrite add64_small; [| exact Ho | unfold FileEntry.sizeof, u32_max; lia].
    unfold FileEntry.sizeof, is_u32 in *.
    destruct (Z.ltb_spec (Ctx.file_table_size c) (o + 32)); [reflexivity | lia].
Qed.

Lemma short_table_resolves_nothing_witness :
  romfsGetFileEntry (Some lone_root_context) 0 = Null /\
  romfsGetDirectoryEntry (Some Ctx.zero) 0 = Null.
Proof.
  split.
  - apply (proj2 (short_table_resolves_nothing lone_root_context 0
                    (is_u32_literal 0 eq_refl))).
    reflexivity.
  - apply (proj1 (short_table_resolves_nothing Ctx.zero 0
                    (is_u32_literal 0 eq_refl))).
    reflexivity.
Defined.

(** X9. The name of a resolved entry sits right after its fixed part, and
    it can be read through the view exactly when the fixed part and the
    name together fit in the table: in an initialized context, reading
    [name_length] bytes at [view + 24] (resp. [view + 32]) succeeds, with
    that many bytes, if [o + 24 + name_length] (resp. [o + 32 +
    name_length]) does not exceed the table size, and fails otherwise. *)
Theorem entry_name_readable_iff_fits (h : heap) (c : Ctx.t) (o : Z) :
  initialized h c ->
  is_u32 o ->
  (forall de,
     resolve_dir h c o = Some de ->
     (o + 24 + DirEntry.name_length de <= Ctx.dir_table_size c ->
      exists name,
        load h (ptr_add (romfsGetDirectoryEntry (Some c) o) 24)
          (DirEntry.name_length de) = Some name /\
        Z.of_nat (length name) = DirEntry.name_length de) /\
     (o + 24 + DirEntry.name_length de > Ctx.dir_table_size c ->
      load h (ptr_add (romfsGetDirectoryEntry (Some c) o) 24)
        (DirEntry.name_length de) = None)) /\
  (forall fe,
     resolve_file h c o = Some fe ->
     (o + 32 + FileEntry.name_length fe <= Ctx.file_table_size c ->
      exists name,
        load h (ptr_add (romfsGetFileEntry (Some c) o) 32)
          (FileEntry.name_length fe) = Some name /\
        Z.of_nat (length name) = FileEntry.name_length fe) /\
     (o + 32 + FileEntry.name_length fe > Ctx.file_table_size c ->
      load h (ptr_add (romfsGetFileEntry (Some c) o) 32)
        (FileEntry.name_length fe) = None)).
Proof.
  intros Hinit Ho.
  destruct (resolved_view_shape h c o Hinit Ho) as [Sd Sf].
  destruct Hinit as [(bd & dbs & Ed & Hd & Ld) (bf & fbs & Ef & Hf & Lf)].
  split.
  - intros de Hres.
    assert (Hnn : romfsGetDirectoryEntry (Some c) o <> Null).
    { intros E. unfold resolve_dir in Hres. rewrite E in Hres. discriminate. }
    destruct (Sd Hnn) as (b & bs & Et & Hb & Hp & Hfit).
    assert (b = bd) by congruence. subst b.
    assert (bs = dbs) by congruence. subst bs.
    rewrite Hp. cbn [ptr_add].
    assert (Hnl : 0 <= DirEntry.name_length de).
    { unfold resolve_dir, load_dir_entry in Hres.
      destruct (load h _ _) as [rec|]; [| discriminate].
      injection Hres as <-. apply field_u32_range. }
    split; intros Hb'.
    + apply (load_in_bounds h bd dbs _ _ Hb); unfold is_u32 in Ho; lia.
    + unfold load. rewrite Hb.
      destruct (Z.leb_spec (o + 24 + DirEntry.name_length de) (Z.of_nat (length dbs)));
        [lia |].
      rewrite andb_false_r. reflexivity.
  - intros fe Hres.
    assert (Hnn : romfsGetFileEntry (Some c) o <> Null).
    { intros E. unfold resolve_file in Hres. rewrite E in Hres. discriminate. }
    destruct (Sf Hnn) as (b & bs & Et & Hb & Hp & Hfit).
    assert (b = bf) by congruence. subst b.
    assert (bs = fbs) by congruence. subst bs.
    rewrite Hp. cbn [ptr_add].
    assert (Hnl : 0 <= FileEntry.name_length fe).
    { unfold resolve_file, load_file_entry in Hres.
      destruct (load h _ _) as [rec|]; [| discriminate].
      injection Hres as <-. apply field_u32_range. }
    split; intros Hb'.
    + apply (load_in_bounds h bf fbs _ _ Hb); unfold is_u32 in Ho; lia.
    + unfold load. rewrite Hb.
      destruct (Z.leb_spec (o + 32 + FileEntry.name_length fe) (Z.of_nat (length fbs)));
        [lia |].
      rewrite andb_false_r. reflexivity.
Qed.

Lemma truncated_heap_initialized : initialized truncated_heap truncated_context.
Proof.
  split.
  - exists 1%positive, truncated_dir_table. repeat split; vm_compute; reflexivity.
  - exists 2%positive, truncated_file_table. repeat split; vm_compute; reflexivity.
Qed.

Lemma entry_name_readable_iff_fits_witness :
  load example_heap (ptr_add (romfsGetDirectoryEntry (Some example_context) 24) 24) 1
  = Some [x61] /\
  load truncated_heap (ptr_add (romfsGetFileEntry (Some truncated_context) 0) 32) 9
  = None.
Proof.
  split.
  - destruct (proj1 (entry_name_readable_iff_fits example_heap example_context 24
                       example_heap_initialized (is_u32_literal 24 eq_refl))
                (DirEntry.mk 0 ROMFS_VOID_ENTRY ROMFS_VOID_ENTRY 72 ROMFS_VOID_ENTRY 1))
      as [Hfit _]; [vm_compute; reflexivity |].
    destruct Hfit as (name & Hname & _); [vm_compute; discriminate |].
    vm_compute. reflexivity.
  - destruct (proj2 (entry_name_readable_iff_fits truncated_heap truncated_context 0
                       truncated_heap_initialized (is_u32_literal 0 eq_refl))
                (FileEntry.mk 0 ROMFS_VOID_ENTRY 0 3 ROMFS_VOID_ENTRY 9))
      as [_ Hcut]; [vm_compute; reflexivity |].
    apply Hcut. vm_compute. reflexivity.
Defined.

(** X10. The fields of a resolved entry stay in the range of their C
    type, whatever bytes the table holds: the links and lengths are [u32]
    values, so each link can be handed back to a resolver, and the data
    offset and size of a file are [u64] values. *)
Theorem resolved_entry_fields_in_range (h : heap) (c : Ctx.t) (o : Z) :
  (forall de,
     resolve_dir h c o = Some de ->
     is_u32 (DirEntry.parent_offset de) /\
     is_u32 (DirEntry.next_offset de) /\
     is_u32 (DirEntry.directory_offset de) /\
     is_u32 (DirEntry.file_offset de) /\
     is_u32 (DirEntry.bucket_offset de) /\
     is_u32 (DirEntry.name_length de)) /\
  (forall fe,
     resolve_file h c o = Some fe ->
     is_u32 (FileEntry.parent_offset fe) /\
     is_u32 (FileEntry.next_offset fe) /\
     is_u64 (FileEntry.offset fe) /\
     is_u64 (FileEntry.size fe) /\
     is_u32 (FileEntry.bucket_offset fe) /\
     is_u32 (FileEntry.name_length fe)).
Proof.
  split.
  - intros de Hres. unfold resolve_dir, load_dir_entry in Hres.
    destruct (load h _ _) as [rec|]; [| discriminate].
    injection Hres as <-. cbn.
    repeat split; apply field_u32_range.
  - intros fe Hres. unfold resolve_file, load_file_entry in Hres.
    destruct (load h _ _) as [rec|]; [| discriminate].
    injection Hres as <-. cbn.
    repeat split; first [apply (proj1 (field_u32_range _ _))
                        | apply (proj2 (field_u32_range _ _))
                        | apply (proj1 (field_u64_range _ _))
                        | apply (proj2 (field_u64_range _ _))].
Qed.

Lemma resolved_entry_fields_in_range_witness :
  is_u32 ROMFS_VOID_ENTRY /\ is_u64 7.
Proof.
  destruct (resolved_entry_fields_in_range example_heap example_context 36)
    as [_ Hf].
  destruct (Hf (FileEntry.mk 0 ROMFS_VOID_ENTRY 5 7 ROMFS_VOID_ENTRY 1))
    as (_ & Hnext & _ & Hsize & _); [vm_compute; reflexivity |].
  split; [exact Hnext | exact Hsize].
Defined.

(** *** The header union *)

Lemma field_u64_halves (bs : list byte) (o : Z) :
  0 <= o ->
  field_u64 bs o = field_u32 bs o + u32_max * field_u32 bs (o + 4).
Proof.
  intros Ho. unfold field_u64, field_u32, slice.
  rewrite le_decode_low_high, skipn_skipn.
  replace (4 + Z.to_nat o)%nat with (Z.to_nat (o + 4)) by lia.
  reflexivity.
Qed.

(** X11. The two views of the header union share their bytes: each 64-bit
    field of the current layout that overlaps the legacy header is made of
    two consecutive 32-bit legacy fields, the first as its low half and the
    second as its high half. *)
Theorem header_views_overlap (hdr : RomFileSystemHeader.t) :
  let old := RomFileSystemHeader.old_format hdr in
  let cur := RomFileSystemHeader.cur_format hdr in
  RomFileSystemInformation.header_size cur
  = RomFileSystemInformationOld.header_size old
    + u32_max * RomFileSystemInformationOld.directory_bucket_offset old /\
  RomFileSystemInformation.directory_bucket_offset cur
  = RomFileSystemInformationOld.directory_bucket_size old
    + u32_max * RomFileSystemInformationOld.directory_entry_offset old /\
  RomFileSystemInformation.directory_bucket_size cur
  = RomFileSystemInformationOld.directory_entry_size old
    + u32_max * RomFileSystemInformationOld.file_bucket_offset old /\
  RomFileSystemInformation.directory_entry_offset cur
  = RomFileSystemInformationOld.file_bucket_size old
    + u32_max * RomFileSystemInformationOld.file_entry_offset old /\
  RomFileSystemInformation.directory_entry_size cur
  = RomFileSystemInformationOld.file_entry_size old
    + u32_max * RomFileSystemInformationOld.body_offset old.
Proof.
  cbn. repeat split.
  - apply (field_u64_halves hdr 0). lia.
  - apply (field_u64_halves hdr 8). lia.
  - apply (field_u64_halves hdr 16). lia.
  - apply (field_u64_halves hdr 24). lia.
  - apply (field_u64_halves hdr 32). lia.
Qed.
